(** * TLDR: thread assembly and the sequential playback engine

    A shallow embedding of
      - [components/useSpeech.ts]  (the playback hook [useSpeech]),
      - the page module            ([normalizeDemoText]),
      - the [/api/thread] route    ([extractStatusId], [cleanText], [POST]),
    followed by the properties the specification states about them.

    JavaScript strings are sequences of UTF-16 code units; they are modelled
    as [list N].  React state is modelled by a record that the setters update
    in program order; the closures a render creates are modelled by the
    values they capture. *)

From Stdlib Require Import List NArith ZArith QArith Bool Lia Ascii String.
From Stdlib Require Import DecimalString DecimalNat Permutation Sorted.
From Stdlib Require Finite.
Import ListNotations.
Close Scope Q_scope.
Close Scope string_scope.

Set Implicit Arguments.

(* ===================================================================== *)
(** * Part I: definitions                                                 *)
(* ===================================================================== *)

(** ** JavaScript string primitives *)

Module JS.

Definition jsstring := list N.

(** An ASCII string literal of the source, as code units. *)
Definition lit (s : string) : jsstring :=
  map N_of_ascii (list_ascii_of_string s).
Arguments lit s%_string.

Definition eqb (a b : jsstring) : bool :=
  if list_eq_dec N.eq_dec a b then true else false.

(** Truthiness of a string: the empty string is the only falsy one. *)
Definition truthy (s : jsstring) : bool :=
  match s with [] => false | _ :: _ => true end.

(** The value of a [string | null | undefined] when it is truthy. *)
Definition if_truthy (o : option jsstring) : option jsstring :=
  match o with
  | Some (c :: r) => Some (c :: r)
  | _ => None
  end.

(** ECMAScript WhiteSpace and LineTerminator code points: the class [\s]
    of regular expressions and the characters [String.prototype.trim]
    strips. *)
Definition isWhiteSpace (c : N) : bool :=
  ((9 <=? c) && (c <=? 13) || (c =? 32) || (c =? 160) || (c =? 5760)
   || (8192 <=? c) && (c <=? 8202) || (c =? 8232) || (c =? 8233)
   || (c =? 8239) || (c =? 8287) || (c =? 12288) || (c =? 65279))%N.

Definition isNewline (c : N) : bool := (c =? 10)%N.

Definition isDigit (c : N) : bool := ((48 <=? c) && (c <=? 57))%N.

Fixpoint trimStart (s : jsstring) : jsstring :=
  match s with
  | [] => []
  | c :: r => if isWhiteSpace c then trimStart r else s
  end.

Fixpoint trimEnd (s : jsstring) : jsstring :=
  match s with
  | [] => []
  | c :: r =>
      match trimEnd r with
      | [] => if isWhiteSpace c then [] else [c]
      | r' => c :: r'
      end
  end.

(** [s.trim()] *)
Definition trim (s : jsstring) : jsstring := trimEnd (trimStart s).

(** Put a character in front of the first piece of a split. *)
Definition cons_head (c : N) (ps : list jsstring) : list jsstring :=
  match ps with
  | [] => [[c]]
  | p :: ps' => (c :: p) :: ps'
  end.

(** [s.split(/\n+/)]: the pieces of [s] between maximal runs of newlines.
    [in_sep] says that the character before was part of a separator, so
    that a further newline extends the separator instead of starting a
    piece.  The pattern never matches the empty string, so the split of
    the empty string is the one empty piece. *)
Fixpoint split_nl_from (in_sep : bool) (s : jsstring) : list jsstring :=
  match s with
  | [] => [[]]
  | c :: r =>
      if isNewline c
      then if in_sep then split_nl_from true r
           else [] :: split_nl_from true r
      else cons_head c (split_nl_from false r)
  end.

Definition split_newlines (s : jsstring) : list jsstring :=
  split_nl_from false s.

(** [s.replace(/\s+/g, " ")]: every maximal run of whitespace becomes one
    space. [in_run] says that the character before was whitespace. *)
Fixpoint collapse_from (in_run : bool) (s : jsstring) : jsstring :=
  match s with
  | [] => []
  | c :: r =>
      if isWhiteSpace c
      then if in_run then collapse_from true r
           else 32%N :: collapse_from true r
      else c :: collapse_from false r
  end.

Definition collapse_ws (s : jsstring) : jsstring := collapse_from false s.

(** Length of the prefix of non-whitespace characters ([\S*]). *)
Fixpoint span_nonws (s : jsstring) : nat :=
  match s with
  | [] => 0
  | c :: r => if isWhiteSpace c then 0 else S (span_nonws r)
  end.

Fixpoint starts_with (p s : jsstring) : bool :=
  match p, s with
  | [], _ => true
  | a :: p', b :: s' => (a =? b)%N && starts_with p' s'
  | _ :: _, [] => false
  end.

(** Length of the match of [/https?:\/\/\S+/] anchored at the start of
    [s], if there is one. *)
Definition url_match (s : jsstring) : option nat :=
  let after (scheme : string) :=
    let n := List.length (lit scheme) in
    if starts_with (lit scheme) s
    then match span_nonws (skipn n s) with
         | 0 => None
         | S k => Some (n + S k)
         end
    else None in
  match after "https://"%string with
  | Some n => Some n
  | None => after "http://"%string
  end.

(** [s.replace(/https?:\/\/\S+/g, f)]: scan left to right; a match is
    replaced by [f] of the matched text and scanning goes on behind it.
    [skip] counts the characters of the current match still to pass. *)
Fixpoint replace_urls_from (f : jsstring -> jsstring) (skip : nat)
         (s : jsstring) : jsstring :=
  match s with
  | [] => []
  | c :: r =>
      match skip with
      | S k => replace_urls_from f k r
      | 0 =>
          match url_match s with
          | Some (S k) => f (firstn (S k) s) ++ replace_urls_from f k r
          | _ => c :: replace_urls_from f 0 r
          end
      end
  end.

Definition replace_urls (f : jsstring -> jsstring) (s : jsstring) :=
  replace_urls_from f 0 s.

(** [String(i)] for an array index. *)
Definition of_nat (i : nat) : jsstring :=
  lit (NilEmpty.string_of_uint (Nat.to_uint i)).

(** [a.map((x, i) => f(x, i))] *)
Fixpoint mapi_from {A B} (f : A -> nat -> B) (i : nat) (l : list A) : list B :=
  match l with
  | [] => []
  | x :: r => f x i :: mapi_from f (S i) r
  end.

Definition mapi {A B} (f : A -> nat -> B) (l : list A) : list B :=
  mapi_from f 0 l.

(** [a[i]] for an integer-valued number [i]: [undefined] out of range. *)
Definition get {A} (l : list A) (i : Z) : option A :=
  if (i <? 0)%Z then None else nth_error l (Z.to_nat i).

End JS.

Import JS.

(** ** [components/types.ts] *)

Record ThreadSegment := { id : jsstring; text : jsstring }.

Record ThreadPayload := {
  title : jsstring;
  authorHandle : option jsstring;
  sourceUrl : option jsstring;
  segments : list ThreadSegment
}.

(** ** The page module: demo assembly *)

Definition normalizeDemoText (text : jsstring) : list ThreadSegment :=
  let lines := filter truthy (map trim (split_newlines text)) in
  let segments :=
    mapi (fun t i => {| id := lit "demo-" ++ of_nat i; text := t |}) lines in
  match segments with
  | [] => [ {| id := lit "demo-0"; text := trim text |} ]
  | _ :: _ => segments
  end.

(** ** The [/api/thread] route: text cleaning *)

Definition cleanText (t : jsstring) : jsstring :=
  trim (replace_urls (fun u => u) (collapse_ws t)).

(** ** The [/api/thread] route *)

Module Route.

(** [Canonicalize] of a case-insensitive pattern without the [u] flag: an
    ASCII letter is compared by its upper-case form, and no character
    outside ASCII is ever equal to an ASCII one. *)
Definition canonicalize (c : N) : N :=
  if ((97 <=? c) && (c <=? 122))%N then (c - 32)%N else c.

Fixpoint starts_with_ci (p s : jsstring) : bool :=
  match p, s with
  | [], _ => true
  | a :: p', b :: s' =>
      (canonicalize a =? canonicalize b)%N && starts_with_ci p' s'
  | _ :: _, [] => false
  end.

(** The digits [\d+] takes at the start of [s] (it is greedy). *)
Fixpoint digits (s : jsstring) : jsstring :=
  match s with
  | [] => []
  | c :: r => if isDigit c then c :: digits r else []
  end.

(** The pattern [\/(status|statuses)\/(\d+)] anchored at the start of
    [s]: the alternatives are tried in order; the result is group 2. *)
Definition status_here (s : jsstring) : option jsstring :=
  let alt (word : string) :=
    let p := lit "/" ++ lit word ++ lit "/" in
    if starts_with_ci p s
    then match digits (skipn (List.length p) s) with
         | [] => None
         | d => Some d
         end
    else None in
  match alt "status"%string with
  | Some d => Some d
  | None => alt "statuses"%string
  end.

(** [url.match(/\/(status|statuses)\/(\d+)/i)?.[2] ?? null]: the leftmost
    position at which the pattern matches. *)
Fixpoint extractStatusId (url : jsstring) : option jsstring :=
  match url with
  | [] => None
  | _ :: r =>
      match status_here url with
      | Some d => Some d
      | None => extractStatusId r
      end
  end.

(** *** What the upstream API answers

    The X API v2 documents string-valued fields; a field that is absent
    is [None].  [tweet_id] and [tweet_text] are the members [id] and [text]
    of a post.  [created_at] is kept as the time value
    [new Date(t.created_at).getTime()], [None] when it is [NaN]. *)

Record XUser := { username : option jsstring; name : option jsstring }.

Record Tweet := {
  tweet_id : jsstring;
  tweet_text : option jsstring;
  conversation_id : option jsstring;
  author_id : option jsstring;
  created_at : option Z
}.

Record RootJson := { data : option Tweet; includes_users : list XUser }.

Record SearchJson := { search_data : option (list Tweet) }.

(** A [Response] of [fetch]: [res.ok] and [await res.json().catch(() => null)]. *)
Record FetchResponse (J : Type) := { ok : bool; json : option J }.

(** The two upstream reads. [FetchRoot id token] stands for the GET of
    [https://api.x.com/2/tweets/${id}?...] and [FetchSearch c u token] for
    the GET of [.../2/tweets/search/recent?query=...] with the query
    [conversation_id:${c} from:${u}], both with the bearer [token]. *)
Inductive fetchE : Type -> Type :=
| FetchRoot (id token : jsstring) : fetchE (FetchResponse RootJson)
| FetchSearch (conversationId username token : jsstring)
  : fetchE (FetchResponse SearchJson).

(** An [async] function that awaits upstream reads.  [run] below follows
    it where every read resolves; [settle], further down, also covers the
    reads that reject and the exception the route then throws. *)
Inductive async (A : Type) : Type :=
| Return (a : A)
| Await (X : Type) (e : fetchE X) (k : X -> async A).
Arguments Return {A} a.
Arguments Await {A X} e k.

(** The upstream reads a run performs, given what each read answers. *)
Fixpoint fetches {A} (h : forall X, fetchE X -> X) (p : async A)
  : list {X & fetchE X} :=
  match p with
  | Return _ => []
  | Await e k => existT _ _ e :: fetches h (k (h _ e))
  end.

Fixpoint run {A} (h : forall X, fetchE X -> X) (p : async A) : A :=
  match p with
  | Return a => a
  | Await e k => run h (k (h _ e))
  end.

(** An upstream that answers the root read with [rootRes] and the search
    with [searchRes]. *)
Definition upstream (rootRes : FetchResponse RootJson)
           (searchRes : FetchResponse SearchJson) : forall X, fetchE X -> X :=
  fun X e =>
    match e in fetchE T return T with
    | FetchRoot _ _ => rootRes
    | FetchSearch _ _ _ => searchRes
    end.

(** *** What the route answers *)

Inductive ResponseBody :=
| ErrorBody (error : jsstring) (hint : option jsstring)
            (details : option RootJson)
| ThreadBody (payload : ThreadPayload) (warning : option jsstring)
             (details : option SearchJson).

(** [NextResponse.json(body, { status })]; the status defaults to 200. *)
Record NextResponse := { status : nat; body : ResponseBody }.

Definition json_response (b : ResponseBody) : NextResponse :=
  {| status := 200; body := b |}.

(** [a.created_at - b.created_at > 0]; a [NaN] difference is not. *)
Definition later (a b : Tweet) : bool :=
  match created_at a, created_at b with
  | Some ta, Some tb => (tb <? ta)%Z
  | _, _ => false
  end.

Fixpoint insert_by_time (x : Tweet) (l : list Tweet) : list Tweet :=
  match l with
  | [] => [x]
  | y :: r => if later x y then y :: insert_by_time x r else x :: l
  end.

(** [tweets.sort((a, b) => time(a) - time(b))]. [Array.prototype.sort] is
    stable, so where every timestamp parses this is the order it fixes.
    With a [NaN] in play the comparator is inconsistent and the order is
    implementation-defined: this function does not model it, and what is
    stated about the order assumes that every timestamp parses. *)
Fixpoint sort_by_time (l : list Tweet) : list Tweet :=
  match l with
  | [] => []
  | x :: r => insert_by_time x (sort_by_time r)
  end.

(** [o?.f]: the member [f] of [o], [undefined] when [o] is. *)
Definition member {A} (f : A -> option jsstring) (o : option A)
  : option jsstring :=
  match o with Some x => f x | None => None end.

(** [s ?? ""] *)
Definition or_empty (s : option jsstring) : jsstring :=
  match s with Some t => t | None => [] end.

(** [rootJson?.data] *)
Definition rootTweet_of (rootJson : option RootJson) : option Tweet :=
  match rootJson with Some j => data j | None => None end.

(** [rootJson?.includes?.users?.[0]] *)
Definition user_of (rootJson : option RootJson) : option XUser :=
  match rootJson with Some j => hd_error (includes_users j) | None => None end.

Section WithZod.

(** [z.string().url()] of the zod library. *)
Variable zod_url : jsstring -> bool.

(** [InputSchema.safeParse(body)]; [body] is the [url] member of the
    request's JSON when there is one and it is a string. *)
Definition safeParse (body : option jsstring) : option jsstring :=
  match body with
  | Some u => if zod_url u then Some u else None
  | None => None
  end.

Definition POST (body : option jsstring) (X_BEARER_TOKEN : option jsstring)
  : async NextResponse :=
  match safeParse body with
  | None =>
      Return {| status := 400;
                body := ErrorBody (lit "Invalid request. Expected { url }.")
                                  None None |}
  | Some url =>
  match if_truthy (extractStatusId url) with
  | None =>
      Return {| status := 400;
                body := ErrorBody (lit "Couldn't find a post ID in that URL.")
                                  None None |}
  | Some id =>
  match if_truthy X_BEARER_TOKEN with
  | None =>
      Return {| status := 501;
                body := ErrorBody
                  (lit "Missing X_BEARER_TOKEN. Add it to your environment (local .env.local or Vercel env vars).")
                  (Some (lit "MVP UI still works if you paste text into the 'Demo Mode' box"
                        ++ [8212%N] ++ lit "no X API required."))
                  None |}
  | Some token =>
  Await (FetchRoot id token) (fun rootRes =>
  let rootJson := json rootRes in
  if negb (ok rootRes) then
    Return {| status := 502;
              body := ErrorBody (lit "X API error fetching root post.")
                                None rootJson |}
  else
  let rootTweet := rootTweet_of rootJson in
  let user := user_of rootJson in
  let conversationId := member conversation_id rootTweet in
  let authorId := member author_id rootTweet in
  match if_truthy conversationId, if_truthy authorId with
  | Some conversationId, Some _ =>
      Await (FetchSearch conversationId (or_empty (member username user))
                         token)
            (fun searchRes =>
      let searchJson := json searchRes in
      if negb (ok searchRes) then
        let text := cleanText (or_empty (member tweet_text rootTweet)) in
        Return (json_response (ThreadBody
          {| title := match if_truthy (member name user) with
                      | Some n => n ++ lit " (1 post)"
                      | None => lit "Thread (1 post)"
                      end;
             authorHandle := match if_truthy (member username user) with
                             | Some u => Some (lit "@" ++ u)
                             | None => None
                             end;
             sourceUrl := Some url;
             segments := [ {| id := id; text := text |} ] |}
          (Some (lit "Couldn't access thread search on your X API plan. Returned the root post only."))
          searchJson))
      else
      let tweets :=
        match searchJson with
        | Some j => match search_data j with Some l => l | None => [] end
        | None => []
        end in
      let tweets := sort_by_time tweets in
      let segments :=
        filter (fun s => (0 <? List.length (text s))%nat)
          (map (fun t =>
                  {| id := tweet_id t;
                     text := cleanText (or_empty (tweet_text t)) |})
               tweets) in
      let title :=
        match if_truthy (member name user) with
        | Some n =>
            n ++ lit " (" ++ of_nat (List.length segments) ++ lit " posts)"
        | None =>
            lit "Thread (" ++ of_nat (List.length segments) ++ lit " posts)"
        end in
      Return (json_response (ThreadBody
        {| title := title;
           authorHandle := match if_truthy (member username user) with
                           | Some u => Some (lit "@" ++ u)
                           | None => None
                           end;
           sourceUrl := Some url;
           segments := segments |}
        None None)))
  | _, _ =>
      let text := cleanText (or_empty (member tweet_text rootTweet)) in
      Return (json_response (ThreadBody
        {| title := match if_truthy (member name user) with
                    | Some n => n ++ lit " (1 post)"
                    | None => lit "Thread (1 post)"
                    end;
           authorHandle := match if_truthy (member username user) with
                           | Some u => Some (lit "@" ++ u)
                           | None => None
                           end;
           sourceUrl := Some url;
           segments := [ {| id := id; text := text |} ] |}
        None None))
  end)
  end end end.

End WithZod.

End Route.

(** ** [components/useSpeech.ts] *)

Module UseSpeech.

Inductive SpeechStatus := idle | playing | paused | ended | error.

(** *** The browser's speech synthesis, as the Web Speech API documents it *)

Record SpeechSynthesisVoice := {
  v_voiceURI : jsstring;
  v_name : jsstring;
  v_lang : jsstring
}.

(** What a render of the hook closes over besides [segments]: the hook's
    functions and the handlers they bind read these, not the live state. *)
Record Render := { r_rate : Q; r_voiceURI : option jsstring; r_index : Z }.

(** An utterance object. [u_key] is its identity ([new] allocates);
    [u_startIndex] and [u_render] are what its [onend] handler captured. *)
Record SpeechSynthesisUtterance := {
  u_key : nat;
  u_text : jsstring;
  u_rate : Q;
  u_voice : option SpeechSynthesisVoice;
  u_startIndex : Z;
  u_render : Render
}.

(** [window.speechSynthesis]: the utterance queue (its head is the one being
    spoken), the paused flag and the voices the platform reports. *)
Record SpeechSynthesis := {
  queue : list SpeechSynthesisUtterance;
  is_paused : bool;
  voices : list SpeechSynthesisVoice
}.

(** [synth.cancel()] empties the queue and leaves the paused flag alone. *)
Definition cancel (s : SpeechSynthesis) : SpeechSynthesis :=
  {| queue := []; is_paused := is_paused s; voices := voices s |}.

(** [synth.speak(u)] appends to the queue. *)
Definition speak (u : SpeechSynthesisUtterance) (s : SpeechSynthesis) :=
  {| queue := queue s ++ [u]; is_paused := is_paused s; voices := voices s |}.

Definition synth_pause (s : SpeechSynthesis) : SpeechSynthesis :=
  {| queue := queue s; is_paused := true; voices := voices s |}.

Definition synth_resume (s : SpeechSynthesis) : SpeechSynthesis :=
  {| queue := queue s; is_paused := false; voices := voices s |}.

(** The head of the queue leaves it when it ends or fails. *)
Definition dequeue (s : SpeechSynthesis) : SpeechSynthesis :=
  {| queue := tl (queue s); is_paused := is_paused s; voices := voices s |}.

(** *** The hook's state: its [useState] cells and its refs.
    [allocated] counts the utterance objects created so far. *)
Record Hook := {
  status : SpeechStatus;
  rate : Q;
  voiceURI : option jsstring;
  index : Z;
  synthRef : option SpeechSynthesis;
  utterRef : option SpeechSynthesisUtterance;
  allocated : nat
}.

Definition setStatus (v : SpeechStatus) (h : Hook) : Hook :=
  {| status := v; rate := rate h; voiceURI := voiceURI h; index := index h;
     synthRef := synthRef h; utterRef := utterRef h;
     allocated := allocated h |}.

Definition setRate (v : Q) (h : Hook) : Hook :=
  {| status := status h; rate := v; voiceURI := voiceURI h; index := index h;
     synthRef := synthRef h; utterRef := utterRef h;
     allocated := allocated h |}.

Definition setVoiceURI (v : option jsstring) (h : Hook) : Hook :=
  {| status := status h; rate := rate h; voiceURI := v; index := index h;
     synthRef := synthRef h; utterRef := utterRef h;
     allocated := allocated h |}.

Definition setIndex (v : Z) (h : Hook) : Hook :=
  {| status := status h; rate := rate h; voiceURI := voiceURI h; index := v;
     synthRef := synthRef h; utterRef := utterRef h;
     allocated := allocated h |}.

Definition setSynth (s : SpeechSynthesis) (h : Hook) : Hook :=
  {| status := status h; rate := rate h; voiceURI := voiceURI h;
     index := index h; synthRef := Some s; utterRef := utterRef h;
     allocated := allocated h |}.

Definition setUtter (u : option SpeechSynthesisUtterance) (h : Hook) : Hook :=
  {| status := status h; rate := rate h; voiceURI := voiceURI h;
     index := index h; synthRef := synthRef h; utterRef := u;
     allocated := allocated h |}.

Definition allocate (h : Hook) : Hook :=
  {| status := status h; rate := rate h; voiceURI := voiceURI h;
     index := index h; synthRef := synthRef h; utterRef := utterRef h;
     allocated := S (allocated h) |}.

(** The state of a fresh mount; [synth] is [window.speechSynthesis], [None]
    where the browser has none. *)
Definition mount (synth : option SpeechSynthesis) : Hook :=
  {| status := idle; rate := 1%Q; voiceURI := None; index := 0%Z;
     synthRef := synth; utterRef := None; allocated := 0 |}.

(** The closure values of the render that shows state [h]. *)
Definition render_of (h : Hook) : Render :=
  {| r_rate := rate h; r_voiceURI := voiceURI h; r_index := index h |}.

Section WithSegments.

Variable segments : list ThreadSegment.

Definition stop (h : Hook) : Hook :=
  match synthRef h with
  | None => h
  | Some synth =>
      setStatus idle (setUtter None (setSynth (cancel synth) h))
  end.

Definition speakFrom (r : Render) (startIndex : Z) (h : Hook) : Hook :=
  match synthRef h with
  | None => setStatus error h
  | Some synth =>
      let synth := cancel synth in
      let h := setSynth synth h in
      match get segments startIndex with
      | None => setStatus ended h
      | Some seg =>
          let voice :=
            match if_truthy (r_voiceURI r) with
            | Some uri =>
                find (fun vv => JS.eqb (v_voiceURI vv) uri) (voices synth)
            | None => None
            end in
          let u := {| u_key := allocated h;
                      u_text := text seg;
                      u_rate := r_rate r;
                      u_voice := voice;
                      u_startIndex := startIndex;
                      u_render := r |} in
          setSynth (speak u synth)
            (setIndex startIndex (setUtter (Some u) (allocate h)))
      end
  end.

(** The handlers [speakFrom] binds to the utterance [u]. *)
Definition onstart (u : SpeechSynthesisUtterance) (h : Hook) : Hook :=
  setStatus playing h.

Definition onend (u : SpeechSynthesisUtterance) (h : Hook) : Hook :=
  let next := (u_startIndex u + 1)%Z in
  if (next <? Z.of_nat (List.length segments))%Z
  then speakFrom (u_render u) next (setIndex next h)
  else setStatus ended h.

Definition onerror (u : SpeechSynthesisUtterance) (h : Hook) : Hook :=
  setStatus error h.

Definition play (r : Render) (h : Hook) : Hook :=
  match segments with
  | [] => h
  | _ :: _ =>
      match synthRef h with
      | None => setStatus error h
      | Some synth =>
          if is_paused synth
          then setStatus playing (setSynth (synth_resume synth) h)
          else speakFrom r (r_index r) h
      end
  end.

Definition pause (h : Hook) : Hook :=
  match synthRef h with
  | None => h
  | Some synth => setStatus paused (setSynth (synth_pause synth) h)
  end.

Definition restart (r : Render) (h : Hook) : Hook :=
  speakFrom r 0 (setIndex 0 (stop h)).

Definition skip (r : Render) (delta : Z) (h : Hook) : Hook :=
  match segments with
  | [] => h
  | _ :: _ =>
      let next :=
        Z.min (Z.max (r_index r + delta) 0)
              (Z.of_nat (List.length segments) - 1) in
      speakFrom r next (stop h)
  end.

(** *** Runs of the engine

    The user invokes the functions of the render on screen; the backend
    delivers start, end and error to the utterance at the head of its
    queue (an utterance that was cancelled is no longer there). *)
Inductive Action :=
| Play | Pause | Restart | Skip (delta : Z) | Stop
| SetIndex (i : Z) | SetRate (v : Q) | SetVoiceURI (v : option jsstring)
| Started | Ended | Failed.

Definition in_flight (h : Hook) : option SpeechSynthesisUtterance :=
  match synthRef h with
  | Some synth => hd_error (queue synth)
  | None => None
  end.

Definition after_dequeue (h : Hook) : Hook :=
  match synthRef h with
  | Some synth => setSynth (dequeue synth) h
  | None => h
  end.

Definition step (h : Hook) (a : Action) : Hook :=
  match a with
  | Play => play (render_of h) h
  | Pause => pause h
  | Restart => restart (render_of h) h
  | Skip delta => skip (render_of h) delta h
  | Stop => stop h
  | SetIndex i => setIndex i h
  | SetRate v => setRate v h
  | SetVoiceURI v => setVoiceURI v h
  | Started =>
      match in_flight h with Some u => onstart u h | None => h end
  | Ended =>
      match in_flight h with
      | Some u => onend u (after_dequeue h)
      | None => h
      end
  | Failed =>
      match in_flight h with
      | Some u => onerror u (after_dequeue h)
      | None => h
      end
  end.

(** The utterance whose handler an action invokes. *)
Definition fires (h : Hook) (a : Action) : option SpeechSynthesisUtterance :=
  match a with
  | Started | Ended | Failed => in_flight h
  | _ => None
  end.

Fixpoint steps (h : Hook) (l : list Action) : Hook :=
  match l with
  | [] => h
  | a :: l' => steps (step h a) l'
  end.

(** The utterances whose handlers a run invokes, in order. *)
Fixpoint fired (h : Hook) (l : list Action) : list SpeechSynthesisUtterance :=
  match l with
  | [] => []
  | a :: l' =>
      match fires h a with
      | Some u => u :: fired (step h a) l'
      | None => fired (step h a) l'
      end
  end.

End WithSegments.

End UseSpeech.

(** ** Vocabulary of the specification *)

(** A text that is empty or whitespace-only. *)
Definition blank (t : jsstring) : bool := forallb isWhiteSpace t.

(** The lines of a text: the pieces between its newline characters. *)
Fixpoint lines (s : jsstring) : list jsstring :=
  match s with
  | [] => [[]]
  | c :: r => if isNewline c then [] :: lines r else cons_head c (lines r)
  end.

(** The lines of a pasted text that are non-empty after trimming. *)
Definition surviving_lines (s : jsstring) : list jsstring :=
  filter truthy (map trim (lines s)).

(** The conversation-group identifier of a root answer, when the root post
    carries both it and an author identifier. *)
Definition conversation_of (rootJson : option Route.RootJson)
  : option jsstring :=
  match if_truthy (Route.member Route.conversation_id (Route.rootTweet_of rootJson)),
        if_truthy (Route.member Route.author_id (Route.rootTweet_of rootJson))
  with
  | Some c, Some _ => Some c
  | _, _ => None
  end.

(** The root post's text, cleaned. *)
Definition root_text (rootJson : option Route.RootJson) : jsstring :=
  cleanText (Route.or_empty
               (Route.member Route.tweet_text (Route.rootTweet_of rootJson))).

(** The author's display name, when it is known. *)
Definition display_name (rootJson : option Route.RootJson) : option jsstring :=
  if_truthy (Route.member Route.name (Route.user_of rootJson)).

(** Every whitespace character is a space and has no whitespace before it
    ([after_ws]: the character in front was whitespace). *)
Fixpoint single_spaced (after_ws : bool) (t : jsstring) : bool :=
  match t with
  | [] => true
  | c :: r =>
      if isWhiteSpace c
      then (c =? 32)%N && negb after_ws && single_spaced true r
      else single_spaced false r
  end.

Definition no_leading_ws (t : jsstring) : Prop :=
  forall c r, t = c :: r -> isWhiteSpace c = false.

Definition no_trailing_ws (t : jsstring) : Prop :=
  forall r c, t = r ++ [c] -> isWhiteSpace c = false.

Definition no_ws_run (t : jsstring) : Prop :=
  forall p c d q, t = p ++ c :: d :: q ->
    isWhiteSpace c && isWhiteSpace d = false.

(** A normalized text: no run of two or more whitespace characters, no
    leading and no trailing whitespace. *)
Definition normalized (t : jsstring) : Prop :=
  no_ws_run t /\ no_leading_ws t /\ no_trailing_ws t.

(** *** The engine *)

(** Every utterance in the backend queue was allocated by the hook. *)
Definition well_formed (h : UseSpeech.Hook) : Prop :=
  forall synth, UseSpeech.synthRef h = Some synth ->
    Forall (fun u => UseSpeech.u_key u < UseSpeech.allocated h)
           (UseSpeech.queue synth).

(** Every utterance in the backend queue, and every one still to be
    allocated, has a key of at least [n]. *)
Definition fresh_from (n : nat) (h : UseSpeech.Hook) : Prop :=
  n <= UseSpeech.allocated h /\
  forall synth, UseSpeech.synthRef h = Some synth ->
    Forall (fun u => n <= UseSpeech.u_key u) (UseSpeech.queue synth).

(** [superseded segs h h']: [h'] is the state after a transition from [h]
    that cancels what is in flight: a speak-from, stop, restart, or a skip
    over a list that is not empty. *)
Inductive superseded (segs : list ThreadSegment) (h : UseSpeech.Hook)
  : UseSpeech.Hook -> Prop :=
| by_speakFrom r i : superseded segs h (UseSpeech.speakFrom segs r i h)
| by_stop : superseded segs h (UseSpeech.stop h)
| by_restart r : superseded segs h (UseSpeech.restart segs r h)
| by_skip r delta :
    segs <> [] -> superseded segs h (UseSpeech.skip segs r delta h).

(** [clamp(i, 0, L - 1)] as [skip] computes it. *)
Definition clamp (segs : list ThreadSegment) (i : Z) : Z :=
  Z.min (Z.max i 0) (Z.of_nat (List.length segs) - 1).

(** *** Sample data *)

Definition sample_url : jsstring := lit "https://x.com/alice/status/42".

Definition sample_tweet (conversation : option jsstring) : Route.Tweet :=
  {| Route.tweet_id := lit "42";
     Route.tweet_text := Some (lit "  hello
 world ");
     Route.conversation_id := conversation;
     Route.author_id := Some (lit "7");
     Route.created_at := Some 0%Z |}.

Definition sample_root (conversation : option jsstring) (users : list Route.XUser)
  : Route.FetchResponse Route.RootJson :=
  {| Route.ok := true;
     Route.json := Some {| Route.data := Some (sample_tweet conversation);
                           Route.includes_users := users |} |}.

Definition sample_search (is_ok : bool) (found : list Route.Tweet)
  : Route.FetchResponse Route.SearchJson :=
  {| Route.ok := is_ok;
     Route.json := Some {| Route.search_data := Some found |} |}.

Definition three_segments : list ThreadSegment :=
  [ {| id := lit "demo-0"; text := lit "a" |};
    {| id := lit "demo-1"; text := lit "b" |};
    {| id := lit "demo-2"; text := lit "c" |} ].

(** A browser with speech synthesis, nothing queued, no voices yet. *)
Definition silent : UseSpeech.SpeechSynthesis :=
  {| UseSpeech.queue := []; UseSpeech.is_paused := false;
     UseSpeech.voices := [] |}.

(** The engine over [three_segments] after a first play: the utterance for
    segment 0 is in flight. *)
Definition first_playing : UseSpeech.Hook :=
  UseSpeech.steps three_segments (UseSpeech.mount (Some silent))
                  [UseSpeech.Play; UseSpeech.Started].

(** The same engine at index 1 in a browser without speech synthesis. *)
Definition no_backend_at_1 : UseSpeech.Hook :=
  UseSpeech.setIndex 1 (UseSpeech.mount None).

(** The utterance [first_playing] has in flight. *)
Definition first_utterance : UseSpeech.SpeechSynthesisUtterance :=
  {| UseSpeech.u_key := 0;
     UseSpeech.u_text := lit "a";
     UseSpeech.u_rate := 1%Q;
     UseSpeech.u_voice := None;
     UseSpeech.u_startIndex := 0%Z;
     UseSpeech.u_render := UseSpeech.render_of (UseSpeech.mount (Some silent)) |}.

(** [first_playing] after the user skips two segments ahead. *)
Definition skipped_ahead : UseSpeech.Hook :=
  UseSpeech.step three_segments first_playing (UseSpeech.Skip 2).

(** ** The rest of the page module *)

Module Page.

(** [a.join(sep)] for an array of strings. *)
Fixpoint join (sep : jsstring) (l : list jsstring) : jsstring :=
  match l with
  | [] => []
  | [x] => x
  | x :: r => x ++ sep ++ join sep r
  end.

(** [classes.filter(Boolean)]: a class is a string, or [false], [null] or
    [undefined] (all [None]); the empty string is dropped as well. *)
Fixpoint filter_Boolean (classes : list (option jsstring)) : list jsstring :=
  match classes with
  | [] => []
  | c :: r =>
      match if_truthy c with
      | Some s => s :: filter_Boolean r
      | None => filter_Boolean r
      end
  end.

Definition cx (classes : list (option jsstring)) : jsstring :=
  join (lit " ") (filter_Boolean classes).

(** The [useState] cells of [Home] and the state of its [useSpeech] hook.
    [payload] holds whatever JSON [setPayload] was given. *)
Record Home := {
  url : jsstring;
  demoText : jsstring;
  loading : bool;
  err : option jsstring;
  payload : option Route.ResponseBody;
  speech : UseSpeech.Hook
}.

(** [payload?.segments ?? []] *)
Definition segments_of (payload : option Route.ResponseBody)
  : list ThreadSegment :=
  match payload with
  | Some (Route.ThreadBody p _ _) => segments p
  | _ => []
  end.

(** [(payload?.segments?.length ?? 0) > 0] *)
Definition canListen (st : Home) : bool :=
  (0 <? List.length (segments_of (payload st)))%nat.

(** The "Load Demo" button is enabled: [demoText.trim()] is truthy. *)
Definition demo_enabled (st : Home) : bool := truthy (trim (demoText st)).








Definition startDemo (st : Home) : Home :=
  {| url := url st; demoText := demoText st; loading := loading st;
     err := None;
     payload := Some (Route.ThreadBody
                        {| title := lit "Demo Mode"; authorHandle := None;
                           sourceUrl := None;
                           segments := normalizeDemoText (demoText st) |}
                        None None);
     speech := UseSpeech.stop (speech st) |}.

(** The click handler of segment [i] in the list:
    [speech.stop(); speech.setIndex(i); speech.play()], all three taken from
    the render [r] on screen. *)
Definition selectSegment (segs : list ThreadSegment) (r : UseSpeech.Render)
           (i : Z) (h : UseSpeech.Hook) : UseSpeech.Hook :=
  UseSpeech.play segs r (UseSpeech.setIndex i (UseSpeech.stop h)).

End Page.

(** ** More vocabulary *)

(** The characters of a text that are not whitespace, in order. *)
Definition nonws_chars (t : jsstring) : jsstring :=
  filter (fun c => negb (isWhiteSpace c)) t.

(** [w] is the text [/status/] or [/statuses/] in any letter case. *)
Definition status_marker (w : jsstring) : Prop :=
  (List.length w = 8 /\ Route.starts_with_ci (lit "/status/") w = true) \/
  (List.length w = 10 /\ Route.starts_with_ci (lit "/statuses/") w = true).

(** The creation time of a post that has one. *)
Definition time_of (t : Route.Tweet) : Z :=
  match Route.created_at t with Some z => z | None => 0%Z end.

Definition in_range (segs : list ThreadSegment) (i : Z) : Prop :=
  (0 <= i < Z.of_nat (List.length segs))%Z.

(** [currentIndex] and the index every queued utterance was created for
    point into the segment list. *)
Definition indexes_ok (segs : list ThreadSegment) (h : UseSpeech.Hook) : Prop :=
  in_range segs (UseSpeech.index h) /\
  forall synth, UseSpeech.synthRef h = Some synth ->
    Forall (fun u => in_range segs (UseSpeech.u_startIndex u))
           (UseSpeech.queue synth).

(** At most one utterance is queued in the backend. *)
Definition single_flight (h : UseSpeech.Hook) : Prop :=
  forall synth, UseSpeech.synthRef h = Some synth ->
    List.length (UseSpeech.queue synth) <= 1.

(** An action of the page: [setIndex] is only called with the position of a
    listed segment. *)
Definition from_page (segs : list ThreadSegment) (a : UseSpeech.Action) : Prop :=
  match a with
  | UseSpeech.SetIndex i => in_range segs i
  | _ => True
  end.

(** The utterance for segment [k] is the only one in the backend queue. *)
Definition speaking (segs : list ThreadSegment) (k : Z) (h : UseSpeech.Hook)
  : Prop :=
  exists synth u seg,
    UseSpeech.synthRef h = Some synth /\
    UseSpeech.queue synth = [u] /\
    UseSpeech.u_startIndex u = k /\
    get segs k = Some seg /\
    UseSpeech.u_text u = text seg.

(** Three found posts with the creation times [1], [2] and [0], in the order
    of the response; the text of the second is blank. *)
Definition sample_thread : list Route.Tweet :=
  [ {| Route.tweet_id := lit "43"; Route.tweet_text := Some (lit "second");
       Route.conversation_id := Some (lit "42");
       Route.author_id := Some (lit "7"); Route.created_at := Some 1%Z |};
    {| Route.tweet_id := lit "44"; Route.tweet_text := Some (lit "  ");
       Route.conversation_id := Some (lit "42");
       Route.author_id := Some (lit "7"); Route.created_at := Some 2%Z |};
    {| Route.tweet_id := lit "42"; Route.tweet_text := Some (lit "first");
       Route.conversation_id := Some (lit "42");
       Route.author_id := Some (lit "7"); Route.created_at := Some 0%Z |} ].


(** [Array.isArray(searchJson?.data) ? searchJson.data : []] *)
Definition found_posts (searchJson : option Route.SearchJson)
  : list Route.Tweet :=
  match searchJson with
  | Some j => match Route.search_data j with Some l => l | None => [] end
  | None => []
  end.

(** The segment the route makes of a post. *)
Definition segment_of (t : Route.Tweet) : ThreadSegment :=
  {| id := Route.tweet_id t;
     text := cleanText (Route.or_empty (Route.tweet_text t)) |}.

(** A post whose text is present and not blank. *)
Definition has_text (t : Route.Tweet) : bool :=
  negb (blank (Route.or_empty (Route.tweet_text t))).

(** The lines of a pasted text that are not blank. *)
Definition nonblank_lines (s : jsstring) : list jsstring :=
  filter (fun l => negb (blank l)) (lines s).

(** [t] is [line] without the whitespace at its two ends. *)
Definition trimmed_from (line t : jsstring) : Prop :=
  exists pre post,
    line = pre ++ t ++ post /\
    blank pre = true /\ blank post = true /\
    no_leading_ws t /\ no_trailing_ws t.

(** *** A route whose upstream reads can fail *)

Definition isHighSurrogate (c : N) : bool := ((55296 <=? c) && (c <=? 56319))%N.
Definition isLowSurrogate (c : N) : bool := ((56320 <=? c) && (c <=? 57343))%N.

(** A string without lone surrogates: the strings [encodeURIComponent]
    accepts; on any other it throws a [URIError]. *)
Fixpoint well_formed_utf16 (s : jsstring) : bool :=
  match s with
  | [] => true
  | c :: r =>
      if isHighSurrogate c
      then match r with
           | d :: r' => isLowSurrogate d && well_formed_utf16 r'
           | [] => false
           end
      else if isLowSurrogate c then false else well_formed_utf16 r
  end.

(** The search query the route encodes before its second read. *)
Definition search_query (conversationId username : jsstring) : jsstring :=
  lit "conversation_id:" ++ conversationId ++ lit " from:" ++ username.

(** Building the request of a read does not throw. *)
Definition encodable {X : Type} (e : Route.fetchE X) : bool :=
  match e with
  | Route.FetchRoot _ _ => true
  | Route.FetchSearch c u _ => well_formed_utf16 (search_query c u)
  end.

(** The outcome of an [async] run when an upstream read may reject ([h]
    answers [None]): [None] is a thrown exception, which the route does not
    catch.  Before a search the query is encoded, which throws on a lone
    surrogate. *)
Fixpoint settle {A : Type} (h : forall X, Route.fetchE X -> option X)
         (p : Route.async A) : option A :=
  match p with
  | Route.Return a => Some a
  | Route.Await e k =>
      if encodable e
      then match h _ e with
           | Some x => settle h (k x)
           | None => None
           end
      else None
  end.

(** The upstream reads such a run attempts. *)
Fixpoint attempted {A : Type} (h : forall X, Route.fetchE X -> option X)
         (p : Route.async A) : list {X & Route.fetchE X} :=
  match p with
  | Route.Return _ => []
  | Route.Await e k =>
      if encodable e
      then existT _ _ e :: match h _ e with
                           | Some x => attempted h (k x)
                           | None => []
                           end
      else []
  end.

(** An upstream all of whose reads resolve. *)
Definition resolving (h : forall X, Route.fetchE X -> X)
  : forall X, Route.fetchE X -> option X :=
  fun X e => Some (h X e).

(* ===================================================================== *)
(** * Part II: properties                                                 *)
(* ===================================================================== *)

Unset Implicit Arguments.

(** ** Strings *)

Section StringFacts.

Lemma trimStart_no_leading s : no_leading_ws (trimStart s).
Proof.
  induction s as [|a s IH]; intros c r E; simpl in E.
  - discriminate.
  - destruct (isWhiteSpace a) eqn:Wa.
    + exact (IH c r E).
    + injection E as -> _. exact Wa.
Qed.

Lemma trimStart_fixed t : no_leading_ws t -> trimStart t = t.
Proof.
  destruct t as [|c r]; intros H; simpl; [reflexivity|].
  now rewrite (H c r eq_refl).
Qed.

(** [trimEnd] keeps a prefix and drops only whitespace. *)
Lemma trimEnd_split x :
  exists w, x = trimEnd x ++ w /\ forallb isWhiteSpace w = true.
Proof.
  induction x as [|a x (w & E & W)]; simpl.
  - exists []. split; reflexivity.
  - destruct (trimEnd x) as [|b y] eqn:T.
    + destruct (isWhiteSpace a) eqn:Wa.
      * exists (a :: w). simpl in *. rewrite Wa, W. now subst x.
      * exists w. simpl in *. now subst x.
    + exists w. split; [|exact W]. simpl. f_equal. exact E.
Qed.

Lemma trimEnd_no_leading x : no_leading_ws x -> no_leading_ws (trimEnd x).
Proof.
  intros H c r E. destruct (trimEnd_split x) as (w & Ex & _).
  rewrite E in Ex. simpl in Ex. exact (H c (r ++ w) Ex).
Qed.

Lemma trimEnd_no_trailing x : no_trailing_ws (trimEnd x).
Proof.
  induction x as [|a x IH]; intros r c E; simpl in E.
  - now destruct r.
  - destruct (trimEnd x) as [|b y] eqn:T.
    + destruct (isWhiteSpace a) eqn:Wa; [now destruct r|].
      destruct r as [|a' r]; simpl in E.
      * now injection E as <-.
      * injection E as _ E. now destruct r.
    + destruct r as [|a' r]; simpl in E; [discriminate|].
      injection E as _ E. exact (IH r c E).
Qed.

Lemma trimEnd_idem x : trimEnd (trimEnd x) = trimEnd x.
Proof.
  induction x as [|a x IH]; simpl; [reflexivity|].
  destruct (trimEnd x) as [|b y] eqn:T.
  - destruct (isWhiteSpace a) eqn:Wa; simpl; [reflexivity|now rewrite Wa].
  - change (trimEnd (a :: b :: y)) with
      (match trimEnd (b :: y) with
       | [] => if isWhiteSpace a then [] else [a]
       | r' => a :: r'
       end).
    now rewrite IH.
Qed.

Lemma trim_no_leading s : no_leading_ws (trim s).
Proof. apply trimEnd_no_leading, trimStart_no_leading. Qed.

Lemma trim_no_trailing s : no_trailing_ws (trim s).
Proof. apply trimEnd_no_trailing. Qed.

Lemma trim_idem s : trim (trim s) = trim s.
Proof.
  unfold trim at 1. rewrite (trimStart_fixed _ (trim_no_leading s)).
  apply trimEnd_idem.
Qed.

Lemma trimStart_blank s : blank s = true -> trimStart s = [].
Proof.
  induction s as [|a s IH]; simpl; [reflexivity|].
  destruct (isWhiteSpace a); simpl; [exact IH|discriminate].
Qed.

Lemma trim_blank s : blank s = true -> trim s = [].
Proof. intros H. unfold trim. now rewrite (trimStart_blank _ H). Qed.

(** A text without leading whitespace is blank only when it is empty. *)
Lemma no_leading_blank t : no_leading_ws t -> blank t = true -> t = [].
Proof.
  destruct t as [|c r]; intros H B; [reflexivity|].
  simpl in B. now rewrite (H c r eq_refl) in B.
Qed.

Lemma trim_empty_blank s : trim s = [] -> blank s = true.
Proof.
  unfold trim. intros E.
  destruct (trimEnd_split (trimStart s)) as (w & Ex & W).
  rewrite E in Ex. simpl in Ex. rewrite <- Ex in W. clear E Ex w.
  induction s as [|a s IH]; simpl in *; [reflexivity|].
  destruct (isWhiteSpace a) eqn:Wa; simpl.
  - exact (IH W).
  - simpl in W. now rewrite Wa in W.
Qed.

End StringFacts.

(** ** Text cleaning *)

Section CleanText.

(** Replacing every URL by itself changes nothing. *)
Lemma replace_urls_from_self k s :
  replace_urls_from (fun u => u) k s = skipn k s.
Proof.
  revert k. induction s as [|c r IH]; intros k.
  - now destruct k.
  - destruct k as [|k]; cbn [replace_urls_from skipn].
    + destruct (url_match (c :: r)) as [[|n]|].
      * now rewrite IH.
      * rewrite IH. cbn [firstn app]. f_equal. apply firstn_skipn.
      * now rewrite IH.
    + apply IH.
Qed.

Lemma cleanText_unfold t : cleanText t = trim (collapse_ws t).
Proof.
  unfold cleanText, replace_urls. now rewrite replace_urls_from_self.
Qed.

Lemma collapse_single_spaced b s :
  single_spaced b (collapse_from b s) = true.
Proof.
  revert b. induction s as [|c r IH]; intros b; simpl; [reflexivity|].
  destruct (isWhiteSpace c) eqn:Wc.
  - destruct b; [apply IH|]. simpl. apply IH.
  - simpl. rewrite Wc. apply IH.
Qed.

Lemma collapse_fixed b t :
  single_spaced b t = true -> collapse_from b t = t.
Proof.
  revert b. induction t as [|c r IH]; intros b H; simpl in *; [reflexivity|].
  destruct (isWhiteSpace c).
  - apply andb_true_iff in H as [H Hr]. apply andb_true_iff in H as [Hc Hb].
    apply N.eqb_eq in Hc. subst c.
    destruct b; [discriminate|]. now rewrite (IH true Hr).
  - now rewrite (IH false H).
Qed.

Lemma single_spaced_trimStart b b' t :
  single_spaced b t = true -> single_spaced b' (trimStart t) = true.
Proof.
  revert b. induction t as [|c r IH]; intros b H; simpl in *; [reflexivity|].
  destruct (isWhiteSpace c) eqn:Wc.
  - apply andb_true_iff in H as [_ Hr]. exact (IH true Hr).
  - simpl. now rewrite Wc.
Qed.

Lemma single_spaced_trimEnd b t :
  single_spaced b t = true -> single_spaced b (trimEnd t) = true.
Proof.
  revert b. induction t as [|c r IH]; intros b H; [reflexivity|].
  cbn [trimEnd]. simpl in H.
  destruct (isWhiteSpace c) eqn:Wc.
  - apply andb_true_iff in H as [Hcb Hr]. specialize (IH true Hr).
    destruct (trimEnd r) as [|d y]; [reflexivity|].
    cbn [single_spaced]. rewrite Wc, Hcb. exact IH.
  - specialize (IH false H).
    destruct (trimEnd r) as [|d y]; cbn [single_spaced]; rewrite Wc;
      [reflexivity|exact IH].
Qed.

Lemma single_spaced_no_run b t : single_spaced b t = true -> no_ws_run t.
Proof.
  intros H p. revert b t H.
  induction p as [|a p IH]; intros b t H c d q ->; simpl in H.
  - destruct (isWhiteSpace c); [|reflexivity].
    apply andb_true_iff in H as [_ H].
    destruct (isWhiteSpace d); [|reflexivity].
    apply andb_true_iff in H as [H _]. apply andb_true_iff in H as [_ H].
    discriminate.
  - destruct (isWhiteSpace a).
    + apply andb_true_iff in H as [_ H]. exact (IH _ _ H c d q eq_refl).
    + exact (IH _ _ H c d q eq_refl).
Qed.

Lemma cleanText_single_spaced t : single_spaced false (cleanText t) = true.
Proof.
  rewrite cleanText_unfold. unfold trim, collapse_ws.
  apply single_spaced_trimEnd, single_spaced_trimStart with (b := false).
  apply collapse_single_spaced.
Qed.

Lemma cleanText_not_blank t : cleanText t <> [] -> blank (cleanText t) = false.
Proof.
  intros H. destruct (blank (cleanText t)) eqn:B; [|reflexivity].
  exfalso. apply H. apply no_leading_blank; [|exact B].
  rewrite cleanText_unfold. apply trim_no_leading.
Qed.

End CleanText.

(** C10. The text-cleaning function is idempotent, [cleanText (cleanText s)
    = cleanText s] for every string [s], and every output is normalized: it
    has no run of two or more whitespace characters and neither leading nor
    trailing whitespace. *)
Theorem cleanText_idempotent (s : jsstring) :
  cleanText (cleanText s) = cleanText s /\ normalized (cleanText s).
Proof.
  split.
  - rewrite (cleanText_unfold (cleanText s)). unfold collapse_ws.
    rewrite (collapse_fixed _ _ (cleanText_single_spaced s)).
    rewrite cleanText_unfold. apply trim_idem.
  - split; [|split].
    + exact (single_spaced_no_run _ _ (cleanText_single_spaced s)).
    + rewrite cleanText_unfold. apply trim_no_leading.
    + rewrite cleanText_unfold. apply trim_no_trailing.
Qed.

Example cleanText_sample :
  cleanText (lit "  see   https://t.co/x
 now ") = lit "see https://t.co/x now".
Proof. reflexivity. Qed.

(** ** Demo assembly *)

Section DemoText.

Let kept (ps : list jsstring) := filter truthy (map trim ps).

Lemma kept_cons_empty ps : kept ([] :: ps) = kept ps.
Proof. reflexivity. Qed.

(** Splitting on runs of newlines only loses empty pieces: the pieces that
    survive trimming are those of the line-by-line split. *)
Lemma split_nl_lines s :
  kept (split_nl_from true s) = kept (lines s) /\
  exists p t1 t2,
    split_nl_from false s = p :: t1 /\ lines s = p :: t2 /\
    kept t1 = kept t2.
Proof.
  induction s as [|c r [IHt (p & t1 & t2 & E1 & E2 & Ek)]].
  - split; [reflexivity|]. now exists [], [], [].
  - cbn [split_nl_from lines]. destruct (isNewline c).
    + split.
      * now rewrite kept_cons_empty.
      * now exists [], (split_nl_from true r), (lines r).
    + rewrite E1, E2. cbn [cons_head]. split.
      * unfold kept in *. cbn [map filter]. now rewrite Ek.
      * now exists (c :: p), t1, t2.
Qed.

Lemma split_newlines_surviving s :
  filter truthy (map trim (split_newlines s)) = surviving_lines s.
Proof.
  destruct (split_nl_lines s) as (_ & p & t1 & t2 & E1 & E2 & Ek).
  unfold split_newlines, surviving_lines. rewrite E1, E2.
  unfold kept in Ek. cbn [map filter]. now rewrite Ek.
Qed.

(** If every piece of the split is blank, so is the text. *)
Lemma split_nl_blank b s :
  Forall (fun p => blank p = true) (split_nl_from b s) -> blank s = true.
Proof.
  revert b. induction s as [|c r IH]; intros b H; [reflexivity|].
  cbn [split_nl_from] in H. cbn [blank forallb].
  destruct (isNewline c) eqn:Nc.
  - apply N.eqb_eq in Nc. subst c. cbn.
    destruct b; [exact (IH _ H)|]. inversion H; subst. exact (IH _ H3).
  - destruct (split_nl_from false r) as [|p ps] eqn:E; cbn [cons_head] in H.
    + destruct r; simpl in E; [discriminate|].
      destruct (isNewline n); [discriminate|].
      now destruct (split_nl_from false r).
    + inversion H as [|? ? Hp Hps]; subst. cbn [blank forallb] in Hp.
      apply andb_true_iff in Hp as [Hc Hp]. rewrite Hc. cbn.
      apply (IH false). rewrite E. now constructor.
Qed.

Lemma kept_nil_blank ps :
  kept ps = [] -> Forall (fun p => blank p = true) ps.
Proof.
  induction ps as [|p ps IH]; intros H; constructor.
  - unfold kept in H. cbn [map filter] in H.
    destruct (trim p) eqn:T; [|discriminate]. now apply trim_empty_blank.
  - apply IH. unfold kept in *. cbn [map filter] in H.
    now destruct (truthy (trim p)).
Qed.

(** The fallback segment is only reached on an all-whitespace text, and
    then its text is empty. *)
Lemma surviving_nil_trim s : surviving_lines s = [] -> trim s = [].
Proof.
  rewrite <- split_newlines_surviving. intros H.
  apply trim_blank, (split_nl_blank false), kept_nil_blank, H.
Qed.

Lemma mapi_from_text (f : nat -> jsstring) i l :
  map text (mapi_from (fun t k => {| id := f k; text := t |}) i l) = l.
Proof.
  revert i. induction l as [|x l IH]; intros i; simpl; [reflexivity|].
  now rewrite IH.
Qed.

Lemma mapi_from_id (f : nat -> jsstring) i l :
  map id (mapi_from (fun t k => {| id := f k; text := t |}) i l)
  = map f (seq i (List.length l)).
Proof.
  revert i. induction l as [|x l IH]; intros i; simpl; [reflexivity|].
  now rewrite IH.
Qed.

Lemma lit_inj a b : lit a = lit b -> a = b.
Proof.
  unfold lit. intros H.
  rewrite <- (string_of_list_ascii_of_string a),
          <- (string_of_list_ascii_of_string b).
  f_equal. revert H.
  generalize (list_ascii_of_string a), (list_ascii_of_string b).
  induction l as [|x l IH]; intros [|y m] H; simpl in H;
    try discriminate; [reflexivity|].
  injection H as Hx Hl. f_equal; [|now apply IH].
  rewrite <- (ascii_N_embedding x), <- (ascii_N_embedding y).
  now rewrite Hx.
Qed.

Lemma of_nat_inj i j : of_nat i = of_nat j -> i = j.
Proof.
  unfold of_nat. intros H. apply lit_inj in H.
  apply Unsigned.to_uint_inj.
  assert (E : Some (Nat.to_uint i) = Some (Nat.to_uint j))
    by now rewrite <- !NilEmpty.usu, H.
  now injection E.
Qed.

Lemma demo_ids_NoDup n :
  NoDup (map (fun i => lit "demo-" ++ of_nat i) (seq 0 n)).
Proof.
  apply Finite.Injective_map_NoDup; [|apply seq_NoDup].
  intros i j H. apply app_inv_head in H. now apply of_nat_inj.
Qed.

Lemma surviving_trimmed s :
  Forall (fun t => t <> [] /\ trim t = t /\ blank t = false)
         (surviving_lines s).
Proof.
  apply Forall_forall. intros t Ht. unfold surviving_lines in Ht.
  apply filter_In in Ht as [Hin Htr]. apply in_map_iff in Hin as (l & <- & _).
  assert (Hne : trim l <> []) by now destruct (trim l).
  split; [exact Hne|]. split; [apply trim_idem|].
  destruct (blank (trim l)) eqn:B; [|reflexivity].
  exfalso. apply Hne. exact (no_leading_blank _ (trim_no_leading l) B).
Qed.

(** What [normalizeDemoText] returns, by cases on the surviving lines. *)
Lemma normalizeDemoText_cases pasted :
  (surviving_lines pasted = [] /\
   normalizeDemoText pasted = [ {| id := lit "demo-0"; text := [] |} ]) \/
  (surviving_lines pasted <> [] /\
   map text (normalizeDemoText pasted) = surviving_lines pasted /\
   map id (normalizeDemoText pasted)
   = map (fun i => lit "demo-" ++ of_nat i)
         (seq 0 (List.length (surviving_lines pasted)))).
Proof.
  unfold normalizeDemoText. rewrite split_newlines_surviving.
  destruct (surviving_lines pasted) as [|l ls] eqn:E.
  - left. split; [reflexivity|]. cbn. now rewrite (surviving_nil_trim _ E).
  - right. split; [discriminate|]. unfold mapi.
    set (f := fun k => lit "demo-" ++ of_nat k).
    change (fun (t : jsstring) (i : nat) =>
              {| id := lit "demo-" ++ of_nat i; text := t |})
      with (fun (t : jsstring) (i : nat) => {| id := f i; text := t |}).
    split.
    + exact (mapi_from_text f 0 (l :: ls)).
    + exact (mapi_from_id f 0 (l :: ls)).
Qed.

End DemoText.

Section TrimmedLines.

Lemma trimStart_split s :
  exists pre, s = pre ++ trimStart s /\ blank pre = true.
Proof.
  induction s as [|c r (pre & E & B)].
  - now exists [].
  - cbn [trimStart]. destruct (isWhiteSpace c) eqn:Wc.
    + exists (c :: pre). cbn [app blank forallb]. rewrite Wc.
      split; [now f_equal|exact B].
    + now exists [].
Qed.

Lemma trim_trimmed_from l : trimmed_from l (trim l).
Proof.
  destruct (trimStart_split l) as (pre & E1 & B1).
  destruct (trimEnd_split (trimStart l)) as (post & E2 & B2).
  exists pre, post. fold (trim l) in E2.
  split; [now rewrite <- E2|].
  split; [exact B1|]. split; [exact B2|].
  split; [apply trim_no_leading|apply trim_no_trailing].
Qed.

Lemma truthy_trim l : truthy (trim l) = negb (blank l).
Proof.
  destruct (blank l) eqn:B.
  - now rewrite (trim_blank l B).
  - destruct (trim l) eqn:T; [|reflexivity].
    apply trim_empty_blank in T. congruence.
Qed.

(** The surviving lines are the lines that are not blank, each trimmed. *)
Lemma surviving_nonblank s :
  surviving_lines s = map trim (nonblank_lines s).
Proof.
  unfold surviving_lines, nonblank_lines.
  induction (lines s) as [|l ls IH]; [reflexivity|].
  cbn [map filter]. rewrite truthy_trim, IH.
  now destruct (blank l).
Qed.

Lemma map_trim_trimmed ls : Forall2 trimmed_from ls (map trim ls).
Proof.
  induction ls as [|l ls IH]; constructor; [apply trim_trimmed_from|exact IH].
Qed.

End TrimmedLines.

(** C5. A pasted text with [N >= 1] lines that are non-empty after trimming
    (not blank) yields exactly [N] segments, in input line order, each equal
    to the trimmed line: the line without the whitespace at its two ends
    (hence with no leading and no trailing whitespace, and not empty), with
    the distinct identifiers demo-0, demo-1, ...; with no such line the
    result is the single segment demo-0 holding the whole trimmed input. *)
Theorem normalizeDemoText_lines (pasted : jsstring) (N : nat) :
  N = List.length (nonblank_lines pasted) ->
  (1 <= N ->
     List.length (normalizeDemoText pasted) = N /\
     map text (normalizeDemoText pasted) = surviving_lines pasted /\
     Forall (fun s => text s <> [] /\ trim (text s) = text s)
            (normalizeDemoText pasted) /\
     map id (normalizeDemoText pasted)
     = map (fun i => lit "demo-" ++ of_nat i) (seq 0 N) /\
     NoDup (map id (normalizeDemoText pasted)) /\
     Forall2 trimmed_from (nonblank_lines pasted)
             (map text (normalizeDemoText pasted)) /\
     Forall (fun s => no_leading_ws (text s) /\ no_trailing_ws (text s) /\
                      blank (text s) = false)
            (normalizeDemoText pasted)) /\
  (N = 0 ->
     normalizeDemoText pasted = [ {| id := lit "demo-0"; text := trim pasted |} ]
     /\ blank pasted = true) /\
  N = List.length (surviving_lines pasted).
Proof.
  intros HN.
  assert (HN' : N = List.length (surviving_lines pasted))
    by now rewrite surviving_nonblank, length_map.
  split; [|split; [|exact HN']].
  - intros H1.
    destruct (normalizeDemoText_cases pasted) as [[E _]|(_ & Ht & Hi)].
    { rewrite E in HN'. simpl in HN'. lia. }
    split; [now rewrite HN', <- Ht, length_map|].
    split; [exact Ht|].
    assert (H := surviving_trimmed pasted). rewrite <- Ht in H.
    apply Forall_map in H.
    split; [revert H; apply Forall_impl; tauto|].
    split; [now rewrite Hi, <- HN'|].
    split; [rewrite Hi; apply demo_ids_NoDup|].
    split; [rewrite Ht, surviving_nonblank; apply map_trim_trimmed|].
    apply (proj1 (Forall_map text
             (fun t => no_leading_ws t /\ no_trailing_ws t /\ blank t = false)
             _)).
    rewrite Ht, surviving_nonblank. apply Forall_forall. intros t Hin.
    apply in_map_iff in Hin as (l & <- & Hl).
    split; [apply trim_no_leading|]. split; [apply trim_no_trailing|].
    apply filter_In in Hl as [_ Hb]. rewrite <- truthy_trim in Hb.
    destruct (blank (trim l)) eqn:B; [|reflexivity].
    apply (no_leading_blank _ (trim_no_leading l)) in B.
    rewrite B in Hb. discriminate.
  - intros H0.
    assert (Hnil : surviving_lines pasted = [])
      by (apply length_zero_iff_nil; lia).
    destruct (normalizeDemoText_cases pasted) as [[E ->]|(Hne & _)];
      [|contradiction].
    assert (Htrim := surviving_nil_trim _ Hnil).
    split; [now rewrite Htrim|now apply trim_empty_blank].
Qed.

Lemma normalizeDemoText_lines_witness :
  3 = List.length (nonblank_lines (lit "a

b
c")) /\
  map text (normalizeDemoText (lit "a

b
c")) = [lit "a"; lit "b"; lit "c"].
Proof.
  split; [reflexivity|].
  destruct (normalizeDemoText_lines (lit "a

b
c") 3 eq_refl) as [H _].
  destruct (H ltac:(lia)) as (_ & -> & _). reflexivity.
Defined.

(** ** The route *)

Section StatusId.

Lemma status_here_truthy s d : Route.status_here s = Some d -> d <> [].
Proof.
  unfold Route.status_here. intros H.
  repeat match type of H with
  | context [if ?b then _ else _] => destruct b
  | context [match Route.digits ?x with _ => _ end] =>
      destruct (Route.digits x)
  end; try discriminate; injection H as <-; discriminate.
Qed.

Lemma extractStatusId_truthy url d :
  Route.extractStatusId url = Some d -> if_truthy (Some d) = Some d.
Proof.
  induction url as [|c r IH]; [discriminate|].
  cbn [Route.extractStatusId].
  destruct (Route.status_here (c :: r)) as [d'|] eqn:E; [|exact IH].
  intros [= <-]. apply status_here_truthy in E. now destruct d'.
Qed.

End StatusId.

Example extractStatusId_sample :
  Route.extractStatusId (lit "https://x.com/alice/status/42") = Some (lit "42")
  /\ Route.extractStatusId (lit "https://twitter.com/a/STATUSES/7?s=20") = Some (lit "7")
  /\ Route.extractStatusId (lit "https://x.com/alice/status/") = None.
Proof. repeat split. Qed.

Section Remote.

Import Route.

Variable zod_url : jsstring -> bool.
Variable h : forall X, fetchE X -> X.
Variables (req : option jsstring) (X_BEARER_TOKEN : option jsstring).
Variables url postId token : jsstring.

Hypothesis parsed : safeParse zod_url req = Some url.
Hypothesis found : extractStatusId url = Some postId.
Hypothesis configured : if_truthy X_BEARER_TOKEN = Some token.

Let rootRes := h _ (FetchRoot postId token).
Let rootJson := json rootRes.

Hypothesis root_ok : ok rootRes = true.

Ltac enter_root :=
  unfold POST; rewrite parsed, found;
  rewrite (extractStatusId_truthy _ _ found), configured;
  cbn [run]; fold rootRes; rewrite root_ok; cbn [negb]; fold rootJson.

(** The root post has no conversation or no author: the root alone. *)
Lemma POST_root_only :
  conversation_of rootJson = None ->
  run h (POST zod_url req X_BEARER_TOKEN) =
  json_response (ThreadBody
    {| title := match display_name rootJson with
                | Some n => n ++ lit " (1 post)"
                | None => lit "Thread (1 post)"
                end;
       authorHandle :=
         match if_truthy (member username (user_of rootJson)) with
         | Some u => Some (lit "@" ++ u)
         | None => None
         end;
       sourceUrl := Some url;
       segments := [ {| id := postId; text := root_text rootJson |} ] |}
    None None).
Proof.
  intros Hc. enter_root. unfold conversation_of in Hc.
  destruct (if_truthy (member conversation_id (rootTweet_of rootJson)));
    [destruct (if_truthy (member author_id (rootTweet_of rootJson)));
     [discriminate|]|]; reflexivity.
Qed.

Variable conversationId : jsstring.
Hypothesis threaded : conversation_of rootJson = Some conversationId.

Let searchRes :=
  h _ (FetchSearch conversationId
         (or_empty (member username (user_of rootJson))) token).

Ltac enter_search :=
  enter_root; unfold conversation_of in threaded;
  destruct (if_truthy (member conversation_id (rootTweet_of rootJson)));
    [|discriminate];
  destruct (if_truthy (member author_id (rootTweet_of rootJson)));
    [|discriminate];
  injection threaded as ->; cbn [run]; fold searchRes.

(** The search fails: the root alone, with a warning. *)
Lemma POST_search_failed :
  ok searchRes = false ->
  run h (POST zod_url req X_BEARER_TOKEN) =
  json_response (ThreadBody
    {| title := match display_name rootJson with
                | Some n => n ++ lit " (1 post)"
                | None => lit "Thread (1 post)"
                end;
       authorHandle :=
         match if_truthy (member username (user_of rootJson)) with
         | Some u => Some (lit "@" ++ u)
         | None => None
         end;
       sourceUrl := Some url;
       segments := [ {| id := postId; text := root_text rootJson |} ] |}
    (Some (lit "Couldn't access thread search on your X API plan. Returned the root post only."))
    (json searchRes)).
Proof. intros Hs. enter_search. rewrite Hs. reflexivity. Qed.

(** The search succeeds: the segments are the found posts whose cleaned
    text is not empty. *)
Lemma POST_full :
  ok searchRes = true ->
  exists p,
    run h (POST zod_url req X_BEARER_TOKEN)
    = json_response (ThreadBody p None None) /\
    Forall (fun s => exists t, text s = cleanText t /\ text s <> [])
           (segments p).
Proof.
  intros Hs. enter_search. rewrite Hs. cbn [negb run].
  eexists. split; [reflexivity|]. cbn [segments].
  apply Forall_forall. intros s Hin.
  apply filter_In in Hin as [Hin Hlen].
  apply in_map_iff in Hin as (t & <- & _). cbn [text] in *.
  eexists. split; [reflexivity|].
  intros E. rewrite E in Hlen. discriminate.
Qed.

End Remote.

Section Blank.

Lemma collapse_blank b t : blank (collapse_from b t) = blank t.
Proof.
  revert b. induction t as [|c r IH]; intros b; [reflexivity|].
  cbn [collapse_from blank forallb]. destruct (isWhiteSpace c) eqn:Wc.
  - destruct b; [apply IH|]. cbn [forallb]. apply IH.
  - cbn [forallb]. now rewrite Wc.
Qed.

Lemma cleanText_blank t : blank (cleanText t) = blank t.
Proof.
  rewrite cleanText_unfold. unfold collapse_ws.
  rewrite <- (collapse_blank false t).
  destruct (blank (collapse_from false t)) eqn:B.
  - now rewrite (trim_blank _ B).
  - destruct (blank (trim (collapse_from false t))) eqn:B'; [|reflexivity].
    apply (no_leading_blank _ (trim_no_leading _)) in B'.
    apply trim_empty_blank in B'. congruence.
Qed.

Lemma cleaned_not_blank s :
  (exists t, text s = cleanText t /\ text s <> []) -> blank (text s) = false.
Proof.
  intros (t & E & Hne). rewrite E in *. now apply cleanText_not_blank.
Qed.

End Blank.

(** C8. A request whose URL holds a numeric status identifier, with no
    credential configured (the variable is unset or empty), is answered with
    the missing-credential failure at status 501 (neither 400 nor 502), and
    the route returns it without awaiting any upstream read. *)
Theorem missing_credential_501
    (zod_url : jsstring -> bool) (req X_BEARER_TOKEN : option jsstring)
    (url postId : jsstring) :
  Route.safeParse zod_url req = Some url ->
  Route.extractStatusId url = Some postId ->
  if_truthy X_BEARER_TOKEN = None ->
  exists hint,
    Route.POST zod_url req X_BEARER_TOKEN
    = Route.Return
        {| Route.status := 501;
           Route.body :=
             Route.ErrorBody
               (lit "Missing X_BEARER_TOKEN. Add it to your environment (local .env.local or Vercel env vars).")
               hint None |}
    /\ forall h, Route.fetches h (Route.POST zod_url req X_BEARER_TOKEN) = [].
Proof.
  intros Hp Hf Ht. unfold Route.POST.
  rewrite Hp, Hf, (extractStatusId_truthy _ _ Hf), Ht.
  eexists. split; reflexivity.
Qed.

Lemma missing_credential_501_witness :
  exists r,
    Route.POST (fun _ => true) (Some sample_url) None = Route.Return r
    /\ Route.status r = 501.
Proof.
  destruct (missing_credential_501 (fun _ => true) (Some sample_url) None
              sample_url (lit "42") eq_refl eq_refl eq_refl)
    as (hint & E & _).
  rewrite E. eexists. split; reflexivity.
Defined.

(** C7. When the root read succeeds and the conversation search fails, the
    route answers with success (status 200): a payload whose only segment is
    the root post with its cleaned text, plus a warning for the caller. *)
Theorem search_failure_degrades
    (zod_url : jsstring -> bool) (h : forall X, Route.fetchE X -> X)
    (req X_BEARER_TOKEN : option jsstring)
    (url postId token conversationId : jsstring) :
  Route.safeParse zod_url req = Some url ->
  Route.extractStatusId url = Some postId ->
  if_truthy X_BEARER_TOKEN = Some token ->
  let rootRes := h _ (Route.FetchRoot postId token) in
  Route.ok rootRes = true ->
  conversation_of (Route.json rootRes) = Some conversationId ->
  let searchRes :=
    h _ (Route.FetchSearch conversationId
           (Route.or_empty
              (Route.member Route.username (Route.user_of (Route.json rootRes))))
           token) in
  Route.ok searchRes = false ->
  exists p warning,
    Route.run h (Route.POST zod_url req X_BEARER_TOKEN)
    = {| Route.status := 200;
         Route.body := Route.ThreadBody p (Some warning) (Route.json searchRes) |}
    /\ segments p
       = [ {| id := postId; text := root_text (Route.json rootRes) |} ].
Proof.
  intros Hp Hf Ht rootRes Hr Hc searchRes Hs.
  rewrite (POST_search_failed zod_url h req X_BEARER_TOKEN url postId token
             Hp Hf Ht Hr conversationId Hc Hs).
  eexists. eexists. split; reflexivity.
Qed.

Lemma search_failure_degrades_witness :
  exists p warning details,
    Route.run (Route.upstream (sample_root (Some (lit "42")) [])
                              (sample_search false []))
              (Route.POST (fun _ => true) (Some sample_url) (Some (lit "secret")))
    = {| Route.status := 200;
         Route.body := Route.ThreadBody p (Some warning) details |}
    /\ map text (segments p) = [lit "hello world"].
Proof.
  destruct (search_failure_degrades (fun _ => true)
              (Route.upstream (sample_root (Some (lit "42")) [])
                              (sample_search false []))
              (Some sample_url) (Some (lit "secret"))
              sample_url (lit "42") (lit "secret") (lit "42")
              eq_refl eq_refl eq_refl eq_refl eq_refl eq_refl)
    as (p & w & E & Hseg).
  exists p, w. eexists. split; [exact E|]. rewrite Hseg. reflexivity.
Defined.

(** C9 as stated fails: for a root post without conversation identifier and
    without author name the title is "Thread (1 post)", not the
    "Thread (<n> posts)" wording with n = 1. *)
Lemma root_only_title_plural_counterexample :
  exists p,
    Route.run (Route.upstream (sample_root None []) (sample_search true []))
              (Route.POST (fun _ => true) (Some sample_url) (Some (lit "secret")))
    = Route.json_response (Route.ThreadBody p None None)
    /\ List.length (segments p) = 1
    /\ title p = lit "Thread (1 post)"
    /\ title p <> lit "Thread (1 posts)".
Proof.
  eexists. split; [reflexivity|]. cbn. repeat split. discriminate.
Qed.

(** C9, amended. When the root read succeeds and the root post carries no
    conversation identifier or no author identifier, the route answers with
    success (status 200, no warning): a payload whose only segment is the
    root post with its cleaned text, titled "<name> (1 post)" when the
    author's display name is known and "Thread (1 post)" otherwise. *)
Theorem root_only_title
    (zod_url : jsstring -> bool) (h : forall X, Route.fetchE X -> X)
    (req X_BEARER_TOKEN : option jsstring) (url postId token : jsstring) :
  Route.safeParse zod_url req = Some url ->
  Route.extractStatusId url = Some postId ->
  if_truthy X_BEARER_TOKEN = Some token ->
  let rootRes := h _ (Route.FetchRoot postId token) in
  Route.ok rootRes = true ->
  conversation_of (Route.json rootRes) = None ->
  exists p,
    Route.run h (Route.POST zod_url req X_BEARER_TOKEN)
    = {| Route.status := 200; Route.body := Route.ThreadBody p None None |}
    /\ segments p
       = [ {| id := postId; text := root_text (Route.json rootRes) |} ]
    /\ title p = match display_name (Route.json rootRes) with
                 | Some n => n ++ lit " (1 post)"
                 | None => lit "Thread (1 post)"
                 end.
Proof.
  intros Hp Hf Ht rootRes Hr Hc.
  rewrite (POST_root_only zod_url h req X_BEARER_TOKEN url postId token
             Hp Hf Ht Hr Hc).
  eexists. split; [reflexivity|]. split; reflexivity.
Qed.

Lemma root_only_title_witness :
  exists p,
    Route.run (Route.upstream (sample_root None []) (sample_search true []))
              (Route.POST (fun _ => true) (Some sample_url) (Some (lit "secret")))
    = {| Route.status := 200; Route.body := Route.ThreadBody p None None |}
    /\ title p = lit "Thread (1 post)".
Proof.
  destruct (root_only_title (fun _ => true)
              (Route.upstream (sample_root None []) (sample_search true []))
              (Some sample_url) (Some (lit "secret"))
              sample_url (lit "42") (lit "secret")
              eq_refl eq_refl eq_refl eq_refl eq_refl)
    as (p & E & _ & Ht).
  exists p. split; [exact E|]. rewrite Ht. reflexivity.
Defined.

(** C6 as stated fails: the demo fallback and the root-only answer hold a
    segment whose text is empty. *)
Lemma blank_segment_counterexample :
  ~ Forall (fun s => blank (text s) = false) (normalizeDemoText (lit "  ")) /\
  exists p,
    Route.run (Route.upstream
                 {| Route.ok := true; Route.json := None |}
                 (sample_search true []))
              (Route.POST (fun _ => true) (Some sample_url) (Some (lit "secret")))
    = Route.json_response (Route.ThreadBody p None None)
    /\ ~ Forall (fun s => blank (text s) = false) (segments p).
Proof.
  split.
  - intros H. inversion H as [|? ? E _]. discriminate E.
  - eexists. split; [reflexivity|].
    intros H. inversion H as [|? ? E _]. discriminate E.
Qed.

(** C6, amended. No segment has an empty or whitespace-only text in a model
    the remote full path produces, nor in one the demo path builds from a
    text with a line that is not blank.  The root-only answers (no
    conversation, or search failed) hold exactly one segment whatever its
    text: the cleaned root text, blank exactly when the root text is
    missing or blank.  The demo fallback holds exactly one segment, with the
    empty text. *)
Theorem assembled_segments_not_blank :
  (forall pasted,
     surviving_lines pasted <> [] ->
     Forall (fun s => blank (text s) = false) (normalizeDemoText pasted)) /\
  (forall pasted,
     surviving_lines pasted = [] ->
     normalizeDemoText pasted = [ {| id := lit "demo-0"; text := [] |} ]) /\
  (forall zod_url (h : forall X, Route.fetchE X -> X) req X_BEARER_TOKEN
          url postId token,
     Route.safeParse zod_url req = Some url ->
     Route.extractStatusId url = Some postId ->
     if_truthy X_BEARER_TOKEN = Some token ->
     let rootRes := h _ (Route.FetchRoot postId token) in
     let rootJson := Route.json rootRes in
     Route.ok rootRes = true ->
     let searchRes c :=
       h _ (Route.FetchSearch c
              (Route.or_empty (Route.member Route.username (Route.user_of rootJson)))
              token) in
     exists p warning details,
       Route.run h (Route.POST zod_url req X_BEARER_TOKEN)
       = Route.json_response (Route.ThreadBody p warning details) /\
       match conversation_of rootJson with
       | Some c =>
           if Route.ok (searchRes c)
           then Forall (fun s => blank (text s) = false) (segments p)
           else segments p = [ {| id := postId; text := root_text rootJson |} ]
       | None => segments p = [ {| id := postId; text := root_text rootJson |} ]
       end /\
       blank (root_text rootJson)
       = blank (Route.or_empty
                  (Route.member Route.tweet_text (Route.rootTweet_of rootJson)))).
Proof.
  split; [|split].
  - intros pasted Hne.
    destruct (normalizeDemoText_cases pasted) as [[E _]|(_ & Ht & _)];
      [contradiction|].
    assert (H := surviving_trimmed pasted). rewrite <- Ht in H.
    apply Forall_map in H. revert H. apply Forall_impl. tauto.
  - intros pasted E.
    destruct (normalizeDemoText_cases pasted) as [[_ H]|(Hne & _)];
      [exact H|contradiction].
  - intros zod_url h req X_BEARER_TOKEN url postId token Hp Hf Ht
           rootRes rootJson Hr searchRes.
    assert (Hb : blank (root_text rootJson)
                 = blank (Route.or_empty
                     (Route.member Route.tweet_text (Route.rootTweet_of rootJson))))
      by apply cleanText_blank.
    destruct (conversation_of rootJson) as [c|] eqn:Hc.
    + destruct (Route.ok (searchRes c)) eqn:Hs.
      * destruct (POST_full zod_url h req X_BEARER_TOKEN url postId token
                    Hp Hf Ht Hr c Hc Hs) as (p & E & Hall).
        exists p, None, None. split; [exact E|]. split; [|exact Hb].
        revert Hall. apply Forall_impl. intros s. apply cleaned_not_blank.
      * rewrite (POST_search_failed zod_url h req X_BEARER_TOKEN url postId
                   token Hp Hf Ht Hr c Hc Hs).
        do 3 eexists. split; [reflexivity|]. split; [reflexivity|exact Hb].
    + rewrite (POST_root_only zod_url h req X_BEARER_TOKEN url postId token
                 Hp Hf Ht Hr Hc).
      do 3 eexists. split; [reflexivity|]. split; [reflexivity|exact Hb].
Qed.

Lemma assembled_segments_not_blank_witness :
  Forall (fun s => blank (text s) = false) (normalizeDemoText (lit "a

b
c")).
Proof.
  destruct assembled_segments_not_blank as [H _].
  apply H. discriminate.
Defined.

(** ** The playback engine *)

Section Engine.

Import UseSpeech.

Variable segs : list ThreadSegment.

Let L := Z.of_nat (List.length segs).

Lemma get_Some_range i seg : get segs i = Some seg -> (0 <= i < L)%Z.
Proof.
  unfold get, L. destruct (i <? 0)%Z eqn:E; [discriminate|].
  intros H. apply Z.ltb_ge in E.
  assert (Hn : Z.to_nat i < List.length segs)
    by (apply nth_error_Some; congruence).
  lia.
Qed.

Lemma get_in_range i : (0 <= i < L)%Z -> exists seg, get segs i = Some seg.
Proof.
  unfold get, L. intros Hi.
  destruct (i <? 0)%Z eqn:E; [apply Z.ltb_lt in E; lia|].
  destruct (nth_error segs (Z.to_nat i)) as [seg|] eqn:N; [now exists seg|].
  apply nth_error_None in N. lia.
Qed.

(** What a speak-from does when the backend is there and the segment
    exists: one new utterance, alone in the queue. *)
Lemma speakFrom_submits r i h synth seg :
  synthRef h = Some synth ->
  get segs i = Some seg ->
  exists u,
    speakFrom segs r i h
    = {| status := status h; rate := rate h; voiceURI := voiceURI h;
         index := i;
         synthRef := Some {| queue := [u]; is_paused := is_paused synth;
                             voices := voices synth |};
         utterRef := Some u; allocated := S (allocated h) |}
    /\ u_key u = allocated h /\ u_text u = text seg
    /\ u_startIndex u = i /\ u_render u = r.
Proof.
  intros Hs Hg. unfold speakFrom. rewrite Hs. cbn. rewrite Hg.
  eexists. split; [reflexivity|]. repeat split.
Qed.

Lemma stop_available h synth :
  synthRef h = Some synth ->
  stop h
  = {| status := idle; rate := rate h; voiceURI := voiceURI h;
       index := index h; synthRef := Some (cancel synth);
       utterRef := None; allocated := allocated h |}.
Proof. intros Hs. unfold stop. now rewrite Hs. Qed.

Lemma clamp_range i : segs <> [] -> (0 <= clamp segs i <= L - 1)%Z.
Proof.
  intros Hne. unfold clamp. fold L.
  assert (0 < L)%Z by (unfold L; destruct segs; [contradiction|simpl; lia]).
  lia.
Qed.

End Engine.

(** C1. With the utterance for segment [k] at the head of the backend queue
    (in flight, not superseded), the backend's end event makes the engine,
    when [k + 1 < L], set [currentIndex] to [k + 1] and submit a newly
    created utterance for segment [k + 1], with no user action in between;
    when [k = L - 1] it sets the status to ended. *)
Theorem completion_advances
    (segs : list ThreadSegment) (h : UseSpeech.Hook)
    (synth : UseSpeech.SpeechSynthesis)
    (u : UseSpeech.SpeechSynthesisUtterance)
    (q : list UseSpeech.SpeechSynthesisUtterance)
    (k : Z) (seg : ThreadSegment) :
  UseSpeech.synthRef h = Some synth ->
  UseSpeech.queue synth = u :: q ->
  UseSpeech.u_startIndex u = k ->
  get segs k = Some seg ->
  let L := Z.of_nat (List.length segs) in
  let h' := UseSpeech.step segs h UseSpeech.Ended in
  ((k + 1 < L)%Z ->
     UseSpeech.index h' = (k + 1)%Z /\
     exists u' seg' synth',
       get segs (k + 1) = Some seg' /\
       UseSpeech.synthRef h' = Some synth' /\
       UseSpeech.queue synth' = [u'] /\
       UseSpeech.u_text u' = text seg' /\
       UseSpeech.u_startIndex u' = (k + 1)%Z /\
       UseSpeech.u_key u' = UseSpeech.allocated h /\
       UseSpeech.allocated h' = S (UseSpeech.allocated h)) /\
  (k = (L - 1)%Z -> UseSpeech.status h' = UseSpeech.ended).
Proof.
  intros Hs Hq Hk Hg L h'.
  assert (Hstep : h' = UseSpeech.onend segs u (UseSpeech.after_dequeue h)).
  { unfold h', UseSpeech.step, UseSpeech.in_flight. now rewrite Hs, Hq. }
  assert (Hr := get_Some_range segs k seg Hg).
  split.
  - intros Hlt.
    destruct (get_in_range segs (k + 1)) as [seg' Hg']; [fold L; lia|].
    assert (Hd : UseSpeech.synthRef
                   (UseSpeech.setIndex (k + 1) (UseSpeech.after_dequeue h))
                 = Some (UseSpeech.dequeue synth)).
    { unfold UseSpeech.after_dequeue. now rewrite Hs. }
    destruct (speakFrom_submits segs (UseSpeech.u_render u) (k + 1)%Z _ _ _ Hd Hg')
      as (u' & E & Hkey & Htext & Hstart & _).
    assert (Hh : h' = UseSpeech.speakFrom segs (UseSpeech.u_render u) (k + 1)
                        (UseSpeech.setIndex (k + 1) (UseSpeech.after_dequeue h))).
    { rewrite Hstep. unfold UseSpeech.onend. rewrite Hk. fold L.
      now destruct (Z.ltb_spec (k + 1) L); [|lia]. }
    rewrite Hh, E. cbn [UseSpeech.index UseSpeech.synthRef UseSpeech.allocated].
    split; [reflexivity|].
    exists u', seg'. eexists. split; [exact Hg'|]. split; [reflexivity|].
    cbn [UseSpeech.queue]. split; [reflexivity|].
    split; [exact Htext|]. split; [exact Hstart|].
    split; [|unfold UseSpeech.after_dequeue; rewrite Hs; reflexivity].
    rewrite Hkey. unfold UseSpeech.after_dequeue. now rewrite Hs.
  - intros Hlast. rewrite Hstep. unfold UseSpeech.onend. rewrite Hk. fold L.
    destruct (Z.ltb_spec (k + 1) L); [lia|]. reflexivity.
Qed.

Lemma completion_advances_witness :
  UseSpeech.index (UseSpeech.step three_segments first_playing UseSpeech.Ended)
  = 1%Z.
Proof.
  destruct (completion_advances three_segments first_playing _ _ _ 0 _
              eq_refl eq_refl eq_refl eq_refl) as [H _].
  destruct (H ltac:(reflexivity)) as [E _]. exact E.
Defined.

(** C2 as stated fails where the browser has no speech synthesis: with 3
    segments at index 1, [skip(-5)] neither moves to the clamped index 0
    nor submits anything; it sets the status to error. *)
Lemma skip_without_backend_counterexample :
  let h := no_backend_at_1 in
  let h' := UseSpeech.step three_segments h (UseSpeech.Skip (-5)) in
  let next := clamp three_segments (UseSpeech.index h + -5) in
  next = 0%Z /\
  UseSpeech.status h' = UseSpeech.error /\
  ~ (UseSpeech.index h' = next /\
     exists u seg,
       get three_segments next = Some seg /\
       UseSpeech.in_flight h' = Some u /\
       UseSpeech.u_text u = text seg).
Proof.
  split; [reflexivity|]. split; [reflexivity|].
  intros [E _]. discriminate E.
Qed.

(** C2, amended. For a payload of length [L >= 1], any current index (the
    one the calling render shows) and any integer [delta], with the
    synthesis backend available: after [skip(delta)] the engine's
    [currentIndex] is [clamp(current + delta, 0, L - 1)], which lies in
    [0, L - 1], and the one utterance in the backend queue is a newly
    created one for the segment at that index.  Without a backend [skip]
    sets the status to error and changes nothing else.  With an empty
    segment list [skip] changes nothing. *)
Theorem skip_clamps
    (segs : list ThreadSegment) (r : UseSpeech.Render) (delta : Z)
    (h : UseSpeech.Hook) :
  let L := Z.of_nat (List.length segs) in
  let next := clamp segs (UseSpeech.r_index r + delta) in
  let h' := UseSpeech.skip segs r delta h in
  (segs <> [] ->
   forall synth, UseSpeech.synthRef h = Some synth ->
     (0 <= UseSpeech.index h' <= L - 1)%Z /\
     UseSpeech.index h' = next /\
     exists u seg synth',
       get segs next = Some seg /\
       UseSpeech.synthRef h' = Some synth' /\
       UseSpeech.queue synth' = [u] /\
       UseSpeech.u_text u = text seg /\
       UseSpeech.u_startIndex u = next /\
       UseSpeech.u_key u = UseSpeech.allocated h) /\
  (segs <> [] -> UseSpeech.synthRef h = None ->
     h' = UseSpeech.setStatus UseSpeech.error h) /\
  (segs = [] -> h' = h).
Proof.
  intros L next h'. split; [|split].
  - intros Hne synth Hs.
    assert (Hr := clamp_range segs (UseSpeech.r_index r + delta) Hne).
    fold next in Hr. fold L in Hr.
    destruct (get_in_range segs next) as [seg Hg]; [fold L; lia|].
    assert (Hs' : UseSpeech.synthRef (UseSpeech.stop h)
                  = Some (UseSpeech.cancel synth))
      by now rewrite (stop_available h synth Hs).
    destruct (speakFrom_submits segs r next _ _ _ Hs' Hg)
      as (u & E & Hkey & Htext & Hstart & _).
    assert (Hh : h' = UseSpeech.speakFrom segs r next (UseSpeech.stop h))
      by (unfold h', UseSpeech.skip; destruct segs; [contradiction|reflexivity]).
    rewrite Hh, E. cbn [UseSpeech.index UseSpeech.synthRef].
    split; [exact Hr|]. split; [reflexivity|].
    exists u, seg. eexists. split; [exact Hg|]. split; [reflexivity|].
    split; [reflexivity|]. split; [exact Htext|]. split; [exact Hstart|].
    rewrite Hkey. now rewrite (stop_available h synth Hs).
  - intros Hne Hs. unfold h', UseSpeech.skip.
    destruct segs; [contradiction|].
    unfold UseSpeech.stop. rewrite Hs. unfold UseSpeech.speakFrom.
    now rewrite Hs.
  - intros ->. reflexivity.
Qed.

Lemma skip_clamps_witness :
  UseSpeech.index
    (UseSpeech.step three_segments
       (UseSpeech.setIndex 1 first_playing) (UseSpeech.Skip (-5))) = 0%Z.
Proof.
  destruct (skip_clamps three_segments
              (UseSpeech.render_of (UseSpeech.setIndex 1 first_playing))
              (-5) (UseSpeech.setIndex 1 first_playing)) as [H _].
  destruct (H ltac:(discriminate) _ eq_refl) as (_ & E & _).
  exact E.
Defined.

(** C4. From status playing with the utterance for segment [k] in flight,
    [pause()] followed by [play()] leaves that same utterance at the head
    of the backend queue with the backend resumed, returns the status to
    playing, keeps [currentIndex] at [k], and creates and submits no new
    utterance. *)
Theorem pause_play_resumes
    (segs : list ThreadSegment) (h : UseSpeech.Hook)
    (synth : UseSpeech.SpeechSynthesis)
    (u : UseSpeech.SpeechSynthesisUtterance)
    (q : list UseSpeech.SpeechSynthesisUtterance)
    (k : Z) (seg : ThreadSegment) :
  UseSpeech.status h = UseSpeech.playing ->
  UseSpeech.synthRef h = Some synth ->
  UseSpeech.queue synth = u :: q ->
  UseSpeech.u_startIndex u = k ->
  get segs k = Some seg ->
  UseSpeech.index h = k ->
  let h1 := UseSpeech.step segs h UseSpeech.Pause in
  let h2 := UseSpeech.step segs h1 UseSpeech.Play in
  UseSpeech.status h1 = UseSpeech.paused /\
  UseSpeech.status h2 = UseSpeech.playing /\
  UseSpeech.index h2 = k /\
  UseSpeech.synthRef h2 = Some (UseSpeech.synth_resume synth) /\
  UseSpeech.in_flight h2 = Some u /\
  UseSpeech.utterRef h2 = UseSpeech.utterRef h /\
  UseSpeech.allocated h2 = UseSpeech.allocated h.
Proof.
  intros Hst Hs Hq Hk Hg Hi h1 h2.
  assert (E1 : h1 = UseSpeech.setStatus UseSpeech.paused
                      (UseSpeech.setSynth (UseSpeech.synth_pause synth) h))
    by (unfold h1, UseSpeech.step, UseSpeech.pause; now rewrite Hs).
  assert (Hne : segs <> []).
  { intros ->. unfold get in Hg.
    destruct (k <? 0)%Z; [discriminate|]. now destruct (Z.to_nat k). }
  assert (E2 : h2 = UseSpeech.setStatus UseSpeech.playing
                      (UseSpeech.setSynth (UseSpeech.synth_resume synth) h)).
  { unfold h2, UseSpeech.step, UseSpeech.play. rewrite E1.
    destruct segs; [contradiction|]. reflexivity. }
  rewrite E1, E2. cbn. unfold UseSpeech.in_flight. cbn. rewrite Hq.
  repeat split. exact Hi.
Qed.

Lemma pause_play_resumes_witness :
  let h2 := UseSpeech.steps three_segments first_playing
              [UseSpeech.Pause; UseSpeech.Play] in
  UseSpeech.status h2 = UseSpeech.playing /\
  UseSpeech.index h2 = 0%Z /\
  UseSpeech.allocated h2 = UseSpeech.allocated first_playing.
Proof.
  destruct (pause_play_resumes three_segments first_playing _ _ _ 0 _
              eq_refl eq_refl eq_refl eq_refl eq_refl eq_refl)
    as (_ & Hst & Hi & _ & _ & _ & Ha).
  split; [exact Hst|]. split; [exact Hi|exact Ha].
Defined.

(** ** Cancelled utterances *)

Section Stale.

Import UseSpeech.

Variable segs : list ThreadSegment.

Lemma allocated_stop h : allocated (stop h) = allocated h.
Proof. unfold stop. now destruct (synthRef h). Qed.

Lemma allocated_after_dequeue h : allocated (after_dequeue h) = allocated h.
Proof. unfold after_dequeue. now destruct (synthRef h). Qed.

Lemma fresh_from_stop n h : n <= allocated h -> fresh_from n (stop h).
Proof.
  intros Hn. unfold stop. destruct (synthRef h) as [synth|] eqn:Hs.
  - split; [exact Hn|]. cbn. intros ? [= <-]. constructor.
  - split; [exact Hn|]. intros ? E. congruence.
Qed.

(** A speak-from leaves at most the utterance it creates in the queue. *)
Lemma fresh_from_speakFrom n r i h :
  n <= allocated h -> fresh_from n (speakFrom segs r i h).
Proof.
  intros Hn. unfold speakFrom. destruct (synthRef h) as [synth|] eqn:Hs.
  - cbn. destruct (get segs i) as [seg|].
    + split; cbn; [lia|]. intros ? [= <-]. cbn.
      constructor; [exact Hn|constructor].
    + split; cbn; [exact Hn|]. intros ? [= <-]. constructor.
  - split; cbn; [exact Hn|]. intros ? E. congruence.
Qed.

Lemma fresh_from_dequeue n h : fresh_from n h -> fresh_from n (after_dequeue h).
Proof.
  intros [Hn Hq]. unfold after_dequeue.
  destruct (synthRef h) as [synth|] eqn:Hs;
    [|split; [exact Hn|intros ? E; congruence]].
  split; [exact Hn|]. cbn. intros ? [= <-]. cbn.
  specialize (Hq synth eq_refl).
  destruct (queue synth); [constructor|now inversion Hq].
Qed.

Lemma fresh_from_set n h h' :
  fresh_from n h -> allocated h' = allocated h -> synthRef h' = synthRef h ->
  fresh_from n h'.
Proof. intros [Hn Hq] Ea Es. split; [lia|]. now rewrite Es. Qed.

(** No transition brings an older utterance back into the queue. *)
Lemma fresh_from_step n h a : fresh_from n h -> fresh_from n (step segs h a).
Proof.
  intros Hf. assert (Hn := proj1 Hf).
  destruct a; cbn [step].
  - unfold play. destruct segs eqn:Esegs; [exact Hf|]. rewrite <- Esegs.
    destruct (synthRef h) as [synth|] eqn:Hs.
    + destruct (is_paused synth).
      * split; [exact Hn|]. cbn. intros ? [= <-]. cbn.
        exact (proj2 Hf synth Hs).
      * now apply fresh_from_speakFrom.
    + now apply (fresh_from_set n h).
  - unfold pause. destruct (synthRef h) as [synth|] eqn:Hs; [|exact Hf].
    split; [exact Hn|]. cbn. intros ? [= <-]. cbn. exact (proj2 Hf synth Hs).
  - apply fresh_from_speakFrom. cbn. now rewrite allocated_stop.
  - unfold skip. destruct segs eqn:Esegs; [exact Hf|]. rewrite <- Esegs.
    apply fresh_from_speakFrom. now rewrite allocated_stop.
  - now apply fresh_from_stop.
  - now apply (fresh_from_set n h).
  - now apply (fresh_from_set n h).
  - now apply (fresh_from_set n h).
  - destruct (in_flight h); [|exact Hf]. now apply (fresh_from_set n h).
  - destruct (in_flight h) as [u|]; [|exact Hf]. unfold onend.
    destruct (u_startIndex u + 1 <? Z.of_nat (List.length segs))%Z.
    + apply fresh_from_speakFrom. cbn. now rewrite allocated_after_dequeue.
    + apply (fresh_from_set n (after_dequeue h));
        [now apply fresh_from_dequeue|reflexivity|reflexivity].
  - destruct (in_flight h) as [u|]; [|exact Hf].
    apply (fresh_from_set n (after_dequeue h));
      [now apply fresh_from_dequeue|reflexivity|reflexivity].
Qed.

Lemma fires_in_flight h a u : fires h a = Some u -> in_flight h = Some u.
Proof. now destruct a. Qed.

Lemma fresh_from_in_flight n h u :
  fresh_from n h -> in_flight h = Some u -> n <= u_key u.
Proof.
  intros [_ Hq] Hu. unfold in_flight in Hu.
  destruct (synthRef h) as [synth|]; [|discriminate].
  specialize (Hq synth eq_refl).
  destruct (queue synth); [discriminate|]. injection Hu as <-.
  now inversion Hq.
Qed.

(** Every handler a run invokes belongs to an utterance that was in the
    queue at its start or was created during the run. *)
Lemma fired_fresh n l :
  forall h, fresh_from n h -> Forall (fun u => n <= u_key u) (fired segs h l).
Proof.
  induction l as [|a l IH]; intros h Hf; cbn [fired]; [constructor|].
  assert (Hf' := fresh_from_step n h a Hf).
  destruct (fires h a) as [u|] eqn:Fa; [|now apply IH].
  constructor; [|now apply IH].
  exact (fresh_from_in_flight n h u Hf (fires_in_flight h a u Fa)).
Qed.

Lemma superseded_fresh h h' :
  superseded segs h h' -> fresh_from (allocated h) h'.
Proof.
  intros [r i| |r|r delta Hne].
  - now apply fresh_from_speakFrom.
  - now apply fresh_from_stop.
  - apply fresh_from_speakFrom. cbn. now rewrite allocated_stop.
  - unfold skip. destruct segs eqn:Esegs; [contradiction|]. rewrite <- Esegs.
    apply fresh_from_speakFrom. now rewrite allocated_stop.
Qed.

(** Well-formedness is an invariant of the engine. *)
Lemma well_formed_speakFrom r i h :
  well_formed (speakFrom segs r i h).
Proof.
  unfold speakFrom, well_formed.
  destruct (synthRef h) as [synth|] eqn:Hs; cbn.
  - destruct (get segs i); cbn; intros ? [= <-]; cbn; repeat constructor.
  - intros ? E. congruence.
Qed.

Lemma well_formed_set h h' :
  well_formed h -> allocated h' = allocated h ->
  (forall s', synthRef h' = Some s' ->
     exists s, synthRef h = Some s /\ incl (queue s') (queue s)) ->
  well_formed h'.
Proof.
  intros Hw Ea Hq s' Hs'. destruct (Hq s' Hs') as (s & Hs & Hin).
  rewrite Ea. apply Forall_forall. intros u Hu.
  exact (proj1 (Forall_forall _ _) (Hw s Hs) u (Hin u Hu)).
Qed.

Lemma well_formed_dequeue h : well_formed h -> well_formed (after_dequeue h).
Proof.
  intros Hw. apply (well_formed_set h); [exact Hw|apply allocated_after_dequeue|].
  unfold after_dequeue. destruct (synthRef h) as [synth|] eqn:Hs.
  - cbn. intros ? [= <-]. exists synth. split; [reflexivity|].
    cbn. destruct (queue synth); [apply incl_refl|apply incl_tl, incl_refl].
  - intros s' E. congruence.
Qed.

Lemma well_formed_step h a : well_formed h -> well_formed (step segs h a).
Proof.
  intros Hw.
  assert (Hsame : forall h', allocated h' = allocated h ->
                             synthRef h' = synthRef h -> well_formed h').
  { intros h' Ea Es. apply (well_formed_set h); [exact Hw|exact Ea|].
    intros s' E. exists s'. rewrite <- Es. split; [exact E|apply incl_refl]. }
  destruct a; cbn [step]; try (apply Hsame; reflexivity).
  - unfold play. destruct segs eqn:Esegs; [exact Hw|]. rewrite <- Esegs.
    destruct (synthRef h) as [synth|] eqn:Hs.
    + destruct (is_paused synth); [|apply well_formed_speakFrom].
      apply (well_formed_set h); [exact Hw|reflexivity|].
      cbn. intros ? [= <-]. exists synth. split; [exact Hs|apply incl_refl].
    + apply Hsame; [reflexivity|exact Hs].
  - unfold pause. destruct (synthRef h) as [synth|] eqn:Hs; [|exact Hw].
    apply (well_formed_set h); [exact Hw|reflexivity|].
    cbn. intros ? [= <-]. exists synth. split; [exact Hs|apply incl_refl].
  - apply well_formed_speakFrom.
  - unfold skip. destruct segs eqn:Esegs; [exact Hw|].
    rewrite <- Esegs. apply well_formed_speakFrom.
  - unfold stop. destruct (synthRef h) as [synth|] eqn:Hs; [|exact Hw].
    intros ? [= <-]. constructor.
  - destruct (in_flight h); [|exact Hw]. apply Hsame; reflexivity.
  - destruct (in_flight h) as [u|]; [|exact Hw]. unfold onend.
    destruct (u_startIndex u + 1 <? Z.of_nat (List.length segs))%Z.
    + apply well_formed_speakFrom.
    + apply (well_formed_set (after_dequeue h));
        [now apply well_formed_dequeue|reflexivity|].
      intros s' E. exists s'. split; [exact E|apply incl_refl].
  - destruct (in_flight h) as [u|]; [|exact Hw].
    apply (well_formed_set (after_dequeue h));
      [now apply well_formed_dequeue|reflexivity|].
    intros s' E. exists s'. split; [exact E|apply incl_refl].
Qed.

(** Every state the engine reaches from a mount is well-formed. *)
Lemma well_formed_reachable synth l :
  (forall s, synth = Some s -> queue s = []) ->
  well_formed (steps segs (mount synth) l).
Proof.
  intros H0.
  assert (Hw : well_formed (mount synth)).
  { intros s Hs. cbn in Hs. rewrite (H0 s Hs). constructor. }
  revert Hw. generalize (mount synth).
  induction l as [|a l IH]; intros h Hw; [exact Hw|].
  cbn [steps]. apply IH. now apply well_formed_step.
Qed.

End Stale.

(** C3 as stated fails: the handlers carry no guard.  After a skip from
    segment 0 to segment 2 has cancelled the first utterance, its completion
    handler, if the backend still delivers it, moves [currentIndex] from 2
    to 1 and replaces the utterance in flight, and its error handler changes
    the status. *)
Lemma stale_callback_counterexample :
  let h := skipped_ahead in
  UseSpeech.in_flight first_playing = Some first_utterance /\
  superseded three_segments first_playing h /\
  (forall synth, UseSpeech.synthRef h = Some synth ->
                 ~ In first_utterance (UseSpeech.queue synth)) /\
  UseSpeech.index h = 2%Z /\
  UseSpeech.index (UseSpeech.onend three_segments first_utterance h) = 1%Z /\
  ~ (UseSpeech.index (UseSpeech.onend three_segments first_utterance h)
     = UseSpeech.index h) /\
  ~ (UseSpeech.status (UseSpeech.onerror first_utterance h)
     = UseSpeech.status h).
Proof.
  split; [reflexivity|]. split.
  - exact (@by_skip three_segments first_playing
             (UseSpeech.render_of first_playing) 2 ltac:(discriminate)).
  - split; [|repeat split; discriminate].
    intros synth [= <-] [E|[]]. discriminate.
Qed.

(** C3, amended. The backend delivers start, end and error only to the
    utterance at the head of its queue, and cancel empties the queue.  Then
    after a transition that cancels or supersedes what is in flight (a
    speak-from, stop, restart, or skip over a non-empty list), no handler of
    an utterance that was in the queue before the transition is invoked in
    any continuation of the run; so none of them mutates [currentIndex] or
    the status, and none advances the queue. *)
Theorem cancelled_never_called
    (segs : list ThreadSegment) (h h' : UseSpeech.Hook)
    (synth : UseSpeech.SpeechSynthesis)
    (u : UseSpeech.SpeechSynthesisUtterance) (l : list UseSpeech.Action) :
  well_formed h ->
  UseSpeech.synthRef h = Some synth ->
  In u (UseSpeech.queue synth) ->
  superseded segs h h' ->
  Forall (fun u' => UseSpeech.u_key u' <> UseSpeech.u_key u)
         (UseSpeech.fired segs h' l).
Proof.
  intros Hw Hs Hu Hsup.
  assert (Hold : UseSpeech.u_key u < UseSpeech.allocated h)
    by exact (proj1 (Forall_forall _ _) (Hw synth Hs) u Hu).
  assert (Hnew := fired_fresh segs (UseSpeech.allocated h) l h'
                    (superseded_fresh segs h h' Hsup)).
  revert Hnew. apply Forall_impl. intros u' Hge. lia.
Qed.

Lemma cancelled_never_called_witness :
  Forall (fun u' => UseSpeech.u_key u' <> 0)
         (UseSpeech.fired three_segments skipped_ahead
            [UseSpeech.Started; UseSpeech.Ended; UseSpeech.Started]).
Proof.
  refine (cancelled_never_called three_segments first_playing skipped_ahead
            _ first_utterance _ _ eq_refl _ _).
  - intros s [= <-]. cbn. repeat constructor.
  - left. reflexivity.
  - exact (@by_skip three_segments first_playing
             (UseSpeech.render_of first_playing) 2 ltac:(discriminate)).
Defined.

(* ===================================================================== *)
(** * Part III: further properties of the code                            *)
(* ===================================================================== *)

(** ** Text cleaning keeps the words *)

Section KeepsWords.

Lemma nonws_collapse b t : nonws_chars (collapse_from b t) = nonws_chars t.
Proof.
  revert b. induction t as [|c r IH]; intros b; [reflexivity|].
  cbn [collapse_from nonws_chars filter]. destruct (isWhiteSpace c) eqn:Wc.
  - destruct b; cbn [negb]; [apply IH|]. cbn [filter]. apply IH.
  - cbn [filter]. rewrite Wc. cbn [negb]. f_equal. apply IH.
Qed.

Lemma nonws_trimStart t : nonws_chars (trimStart t) = nonws_chars t.
Proof.
  induction t as [|c r IH]; [reflexivity|].
  cbn [trimStart]. destruct (isWhiteSpace c) eqn:Wc; [|reflexivity].
  cbn [nonws_chars filter]. rewrite Wc. exact IH.
Qed.

Lemma nonws_trimEnd t : nonws_chars (trimEnd t) = nonws_chars t.
Proof.
  induction t as [|c r IH]; [reflexivity|].
  cbn [trimEnd]. unfold nonws_chars in *. cbn [filter].
  destruct (trimEnd r) as [|d y].
  - rewrite <- IH. destruct (isWhiteSpace c) eqn:Wc; cbn [filter negb];
      [reflexivity|]. now rewrite Wc.
  - rewrite <- IH. reflexivity.
Qed.

Lemma nonws_trim t : nonws_chars (trim t) = nonws_chars t.
Proof. unfold trim. now rewrite nonws_trimEnd, nonws_trimStart. Qed.

End KeepsWords.

(** X1. [cleanText] only touches whitespace: the characters of its output
    that are not whitespace are those of its input, in the same order. *)
Theorem cleanText_keeps_nonws (t : jsstring) :
  nonws_chars (cleanText t) = nonws_chars t.
Proof.
  rewrite cleanText_unfold. unfold collapse_ws.
  now rewrite nonws_trim, nonws_collapse.
Qed.

(** X2. [cleanText] returns the empty string exactly for the texts that are
    empty or whitespace-only. *)
Theorem cleanText_empty_iff_blank (t : jsstring) :
  cleanText t = [] <-> blank t = true.
Proof.
  split.
  - intros E. rewrite <- cleanText_blank, E. reflexivity.
  - intros B. rewrite <- cleanText_blank in B.
    apply no_leading_blank; [|exact B].
    rewrite cleanText_unfold. apply trim_no_leading.
Qed.

(** ** [extractStatusId] *)

Section StatusIdMore.

Lemma digits_split s :
  exists rest,
    s = Route.digits s ++ rest /\
    forallb isDigit (Route.digits s) = true /\
    match rest with [] => True | c :: _ => isDigit c = false end.
Proof.
  induction s as [|c r (rest & E & D & H)].
  - exists []. repeat split.
  - cbn [Route.digits]. destruct (isDigit c) eqn:Dc.
    + exists rest. cbn [app forallb]. rewrite Dc, D. repeat split; [|exact H].
      now f_equal.
    + exists (c :: r). repeat split. exact Dc.
Qed.

Lemma starts_with_ci_split p s :
  Route.starts_with_ci p s = true ->
  exists w, s = w ++ skipn (List.length p) s /\
            List.length w = List.length p /\
            Route.starts_with_ci p w = true.
Proof.
  revert s. induction p as [|a p IH]; intros s H.
  - exists []. repeat split.
  - destruct s as [|b s]; [discriminate|]. cbn [Route.starts_with_ci] in H.
    apply andb_true_iff in H as [Hab Hp].
    destruct (IH s Hp) as (w & E & Hl & Hw).
    exists (b :: w). cbn [app List.length skipn Route.starts_with_ci].
    rewrite Hab, Hw, Hl. repeat split. now f_equal.
Qed.

Lemma starts_with_ci_app p w x :
  Route.starts_with_ci p w = true -> Route.starts_with_ci p (w ++ x) = true.
Proof.
  revert w. induction p as [|a p IH]; intros w H; [reflexivity|].
  destruct w as [|b w]; [discriminate|]. cbn [Route.starts_with_ci app] in *.
  apply andb_true_iff in H as [Hab Hp]. now rewrite Hab, (IH w Hp).
Qed.

Lemma skipn_marker (w x : jsstring) n :
  List.length w = n -> skipn n (w ++ x) = x.
Proof.
  intros <-. rewrite skipn_app, skipn_all, Nat.sub_diag. reflexivity.
Qed.

(** A match at the start of [s]: the marker, the digits, the rest. *)
Lemma status_here_sound s d :
  Route.status_here s = Some d ->
  exists w rest,
    s = w ++ d ++ rest /\ status_marker w /\
    d <> [] /\ forallb isDigit d = true /\
    match rest with [] => True | c :: _ => isDigit c = false end.
Proof.
  unfold Route.status_here.
  change (lit "/" ++ lit "status" ++ lit "/") with (lit "/status/").
  change (lit "/" ++ lit "statuses" ++ lit "/") with (lit "/statuses/").
  intros H.
  assert (Hcase :
    (Route.starts_with_ci (lit "/status/") s = true /\
     Route.digits (skipn 8 s) = d /\ d <> []) \/
    (Route.starts_with_ci (lit "/statuses/") s = true /\
     Route.digits (skipn 10 s) = d /\ d <> [])).
  { destruct (Route.starts_with_ci (lit "/status/") s) eqn:S1.
    - change (List.length (lit "/status/")) with 8 in H.
      destruct (Route.digits (skipn 8 s)) as [|c y] eqn:D1.
      + destruct (Route.starts_with_ci (lit "/statuses/") s) eqn:S2;
          [|discriminate].
        change (List.length (lit "/statuses/")) with 10 in H.
        destruct (Route.digits (skipn 10 s)) eqn:D2; [discriminate|].
        injection H as <-. right. repeat split; discriminate.
      + injection H as <-. left. repeat split; discriminate.
    - destruct (Route.starts_with_ci (lit "/statuses/") s) eqn:S2;
        [|discriminate].
      change (List.length (lit "/statuses/")) with 10 in H.
      destruct (Route.digits (skipn 10 s)) eqn:D2; [discriminate|].
      injection H as <-. right. repeat split; discriminate. }
  destruct Hcase as [(S & D & Hne)|(S & D & Hne)];
    destruct (starts_with_ci_split _ _ S) as (w & E & Hl & Hw);
    [change (List.length (lit "/status/")) with 8 in *
    |change (List.length (lit "/statuses/")) with 10 in *].
  - destruct (digits_split (skipn 8 s)) as (rest & Er & Dd & Hr).
    rewrite D in Er, Dd. exists w, rest.
    split; [now rewrite <- Er|]. split; [left; now split|]. now repeat split.
  - destruct (digits_split (skipn 10 s)) as (rest & Er & Dd & Hr).
    rewrite D in Er, Dd. exists w, rest.
    split; [now rewrite <- Er|]. split; [right; now split|]. now repeat split.
Qed.

Lemma status_here_complete w c rest :
  status_marker w -> isDigit c = true ->
  exists d, Route.status_here (w ++ c :: rest) = Some d.
Proof.
  intros Hw Dc. unfold Route.status_here.
  change (lit "/" ++ lit "status" ++ lit "/") with (lit "/status/").
  change (lit "/" ++ lit "statuses" ++ lit "/") with (lit "/statuses/").
  change (List.length (lit "/status/")) with 8.
  change (List.length (lit "/statuses/")) with 10.
  destruct Hw as [[Hl Hs]|[Hl Hs]].
  - rewrite (starts_with_ci_app _ _ (c :: rest) Hs), (skipn_marker _ _ 8 Hl).
    cbn [Route.digits]. rewrite Dc. eexists. reflexivity.
  - destruct (if Route.starts_with_ci (lit "/status/") (w ++ c :: rest)
              then match Route.digits (skipn 8 (w ++ c :: rest)) with
                   | [] => None
                   | n :: l => Some (n :: l)
                   end
              else None) as [d|]; [now exists d|].
    rewrite (starts_with_ci_app _ _ (c :: rest) Hs), (skipn_marker _ _ 10 Hl).
    cbn [Route.digits]. rewrite Dc. eexists. reflexivity.
Qed.

End StatusIdMore.

(** X3. The identifier [extractStatusId] returns is a non-empty run of ASCII
    digits of the URL that directly follows [/status/] or [/statuses/] (in
    any letter case) and is not followed by a further digit. *)
Theorem extractStatusId_sound (url d : jsstring) :
  Route.extractStatusId url = Some d ->
  d <> [] /\ forallb isDigit d = true /\
  exists p w rest,
    url = p ++ w ++ d ++ rest /\ status_marker w /\
    match rest with [] => True | c :: _ => isDigit c = false end.
Proof.
  induction url as [|a r IH]; [discriminate|].
  cbn [Route.extractStatusId].
  destruct (Route.status_here (a :: r)) as [d'|] eqn:E.
  - intros [= <-].
    destruct (status_here_sound _ _ E) as (w & rest & Eu & Hw & Hne & Hd & Hr).
    split; [exact Hne|]. split; [exact Hd|]. now exists [], w, rest.
  - intros H. destruct (IH H) as (Hne & Hd & p & w & rest & Eu & Hw & Hr).
    split; [exact Hne|]. split; [exact Hd|].
    exists (a :: p), w, rest. cbn [app]. now rewrite <- Eu.
Qed.

Lemma extractStatusId_sound_witness :
  forallb isDigit (lit "42") = true.
Proof.
  exact (proj1 (proj2 (extractStatusId_sound sample_url (lit "42") eq_refl))).
Defined.

(** X4. Whenever the URL holds [/status/] or [/statuses/] (in any letter
    case) directly followed by a digit, [extractStatusId] finds an
    identifier. *)
Theorem extractStatusId_complete (p w rest : jsstring) (c : N) :
  status_marker w -> isDigit c = true ->
  exists d, Route.extractStatusId (p ++ w ++ c :: rest) = Some d.
Proof.
  intros Hw Dc. destruct (status_here_complete w c rest Hw Dc) as [d Hd].
  induction p as [|a p [d' IH]].
  - cbn [app]. destruct (w ++ c :: rest) as [|x s] eqn:E.
    + destruct w; discriminate.
    + cbn [Route.extractStatusId]. rewrite Hd. now exists d.
  - cbn [app Route.extractStatusId].
    destruct (Route.status_here (a :: p ++ w ++ c :: rest)) as [d''|];
      [now exists d''|now exists d'].
Qed.

Lemma extractStatusId_complete_witness :
  exists d,
    Route.extractStatusId
      (lit "https://twitter.com/bob" ++ lit "/Statuses/" ++ 57%N :: lit "?s=20")
    = Some d.
Proof.
  apply extractStatusId_complete; [right; split; reflexivity|reflexivity].
Defined.

(** ** The route: failures *)

(** X5. A request without a usable [url], or with a URL that holds no status
    identifier, is answered with status 400 before the credential is looked
    at and without any upstream read. *)
Theorem POST_bad_request
    (zod_url : jsstring -> bool) (req X_BEARER_TOKEN : option jsstring) :
  Route.safeParse zod_url req = None \/
  (exists url, Route.safeParse zod_url req = Some url /\
               Route.extractStatusId url = None) ->
  exists message,
    Route.POST zod_url req X_BEARER_TOKEN
    = Route.Return {| Route.status := 400;
                      Route.body := Route.ErrorBody message None None |}.
Proof.
  unfold Route.POST. intros [H|(url & H & Hid)]; rewrite H.
  - eexists. reflexivity.
  - rewrite Hid. eexists. reflexivity.
Qed.

Lemma POST_bad_request_witness :
  exists message,
    Route.POST (fun _ => true) (Some (lit "https://x.com/alice")) None
    = Route.Return {| Route.status := 400;
                      Route.body := Route.ErrorBody message None None |}.
Proof.
  apply POST_bad_request. right. eexists. split; reflexivity.
Defined.

(** X6. When the root read does not succeed, the route answers with status
    502, hands the upstream's JSON back as [details], and has made that one
    read only: no search is attempted. *)
Theorem POST_root_failure
    (zod_url : jsstring -> bool) (h : forall X, Route.fetchE X -> X)
    (req X_BEARER_TOKEN : option jsstring) (url postId token : jsstring) :
  Route.safeParse zod_url req = Some url ->
  Route.extractStatusId url = Some postId ->
  if_truthy X_BEARER_TOKEN = Some token ->
  let rootRes := h _ (Route.FetchRoot postId token) in
  Route.ok rootRes = false ->
  Route.run h (Route.POST zod_url req X_BEARER_TOKEN)
  = {| Route.status := 502;
       Route.body := Route.ErrorBody (lit "X API error fetching root post.")
                                     None (Route.json rootRes) |}
  /\ Route.fetches h (Route.POST zod_url req X_BEARER_TOKEN)
     = [ existT _ _ (Route.FetchRoot postId token) ].
Proof.
  intros Hp Hf Ht rootRes Hr. unfold Route.POST.
  rewrite Hp, Hf, (extractStatusId_truthy _ _ Hf), Ht.
  cbn [Route.run Route.fetches]. fold rootRes. rewrite Hr.
  split; reflexivity.
Qed.

Lemma POST_root_failure_witness :
  Route.status
    (Route.run (Route.upstream {| Route.ok := false; Route.json := None |}
                               (sample_search true []))
       (Route.POST (fun _ => true) (Some sample_url) (Some (lit "secret"))))
  = 502.
Proof.
  destruct (POST_root_failure (fun _ => true)
              (Route.upstream {| Route.ok := false; Route.json := None |}
                              (sample_search true []))
              (Some sample_url) (Some (lit "secret"))
              sample_url (lit "42") (lit "secret")
              eq_refl eq_refl eq_refl eq_refl) as [E _].
  rewrite E. reflexivity.
Defined.

Section Settled.

Import Route.

Lemma if_truthy_Some o x : if_truthy o = Some x -> o = Some x.
Proof. destruct o as [[|c r]|]; cbn; congruence. Qed.

(** Every way a run of the route can end. *)
Lemma POST_settled
    (zod_url : jsstring -> bool) (h : forall X, fetchE X -> option X)
    (req X_BEARER_TOKEN : option jsstring) :
  match settle h (POST zod_url req X_BEARER_TOKEN) with
  | Some res =>
      (status res = 200 /\
       exists p warning details,
         body res = ThreadBody p warning details /\ sourceUrl p = req)
      \/
      ((status res = 400 \/ status res = 501 \/ status res = 502) /\
       exists message hint details, body res = ErrorBody message hint details)
  | None =>
      exists url postId token,
        safeParse zod_url req = Some url /\
        extractStatusId url = Some postId /\
        if_truthy X_BEARER_TOKEN = Some token /\
        (h _ (FetchRoot postId token) = None \/
         exists rootRes c,
           h _ (FetchRoot postId token) = Some rootRes /\
           ok rootRes = true /\
           conversation_of (json rootRes) = Some c /\
           let u := or_empty (member username (user_of (json rootRes))) in
           (well_formed_utf16 (search_query c u) = false \/
            h _ (FetchSearch c u token) = None))
  end /\
  List.length (attempted h (POST zod_url req X_BEARER_TOKEN)) <= 2.
Proof.
  assert (Herr : forall st m hint d,
            st = 400 \/ st = 501 \/ st = 502 ->
            (st = 200 /\
             exists p warning details,
               ErrorBody m hint d = ThreadBody p warning details /\
               sourceUrl p = req)
            \/
            ((st = 400 \/ st = 501 \/ st = 502) /\
             exists message hint' details,
               ErrorBody m hint d = ErrorBody message hint' details)).
  { intros st m hint d Hst. right. split; [exact Hst|].
    now exists m, hint, d. }
  unfold POST, safeParse.
  destruct req as [u|]; [destruct (zod_url u) eqn:Hz|].
  2, 3: split; [apply Herr; auto|cbn; lia].
  destruct (if_truthy (extractStatusId u)) as [postId|] eqn:Hid.
  2: split; [apply Herr; auto|cbn; lia].
  apply if_truthy_Some in Hid.
  destruct (if_truthy X_BEARER_TOKEN) as [token|] eqn:Htok.
  2: split; [apply Herr; auto|cbn; lia].
  cbn [settle attempted encodable].
  destruct (h _ (FetchRoot postId token)) as [rootRes|] eqn:Hroot.
  2: { split; [|cbn; lia]. exists u, postId, token.
       repeat split; [exact Hid|]. now left. }
  destruct (ok rootRes) eqn:Hok; cbn [negb].
  2: split; [apply Herr; auto|cbn; lia].
  destruct (if_truthy (member conversation_id (rootTweet_of (json rootRes))))
    as [c|] eqn:Hc.
  2: split; [left; split; [reflexivity|do 3 eexists; split; reflexivity]
            |cbn; lia].
  destruct (if_truthy (member author_id (rootTweet_of (json rootRes))))
    as [a|] eqn:Ha.
  2: split; [left; split; [reflexivity|do 3 eexists; split; reflexivity]
            |cbn; lia].
  assert (Hconv : conversation_of (json rootRes) = Some c)
    by (unfold conversation_of; now rewrite Hc, Ha).
  cbn [settle attempted encodable].
  destruct (well_formed_utf16
              (search_query c (or_empty (member username (user_of (json rootRes))))))
    eqn:Hwf.
  2: { split; [|cbn; lia]. exists u, postId, token.
       repeat split; [exact Hid|]. right. exists rootRes, c.
       split; [exact Hroot|]. split; [exact Hok|]. split; [exact Hconv|].
       left. exact Hwf. }
  destruct (h _ (FetchSearch c _ token)) as [searchRes|] eqn:Hsearch.
  2: { split; [|cbn; lia]. exists u, postId, token.
       repeat split; [exact Hid|]. right. exists rootRes, c.
       split; [exact Hroot|]. split; [exact Hok|]. split; [exact Hconv|].
       right. exact Hsearch. }
  destruct (ok searchRes);
    (split; [left; split; [reflexivity|do 3 eexists; split; reflexivity]
            |cbn; lia]).
Qed.

(** Where every read resolves and the query encodes, the run that can
    reject is the run that cannot. *)
Lemma settle_resolving {A : Type} (h : forall X, fetchE X -> X)
      (p : async A) (r : A) :
  settle (resolving h) p = Some r -> r = run h p.
Proof.
  induction p as [a|X e k IH]; cbn [settle run].
  - now intros [= <-].
  - destruct (encodable e); [|discriminate]. unfold resolving at 1.
    apply IH.
Qed.

End Settled.

Example POST_throws :
  settle (fun _ _ => None)
         (Route.POST (fun _ => true) (Some sample_url) (Some (lit "secret")))
  = None.
Proof. reflexivity. Qed.

(** X7. Whatever the request, the environment and the upstream (its JSON
    shaped as the X API documents), rejecting reads included: a run of the
    route either answers with status 200 and a
    thread payload whose [sourceUrl] is the requested URL, or answers with
    status 400, 501 or 502 and an error body, or throws; it throws only
    after the request, the identifier and the credential were accepted,
    when the root read rejects, or when the root read succeeded with a
    conversation and the search query holds a lone surrogate or the search
    read rejects.  A run attempts at most two upstream reads. *)
Theorem POST_answers
    (zod_url : jsstring -> bool) (h : forall X, Route.fetchE X -> option X)
    (req X_BEARER_TOKEN : option jsstring) :
  match settle h (Route.POST zod_url req X_BEARER_TOKEN) with
  | Some res =>
      (Route.status res = 200 /\
       exists p warning details,
         Route.body res = Route.ThreadBody p warning details /\
         sourceUrl p = req)
      \/
      ((Route.status res = 400 \/ Route.status res = 501 \/
        Route.status res = 502) /\
       exists message hint details,
         Route.body res = Route.ErrorBody message hint details)
  | None =>
      exists url postId token,
        Route.safeParse zod_url req = Some url /\
        Route.extractStatusId url = Some postId /\
        if_truthy X_BEARER_TOKEN = Some token /\
        (h _ (Route.FetchRoot postId token) = None \/
         exists rootRes c,
           h _ (Route.FetchRoot postId token) = Some rootRes /\
           Route.ok rootRes = true /\
           conversation_of (Route.json rootRes) = Some c /\
           let u := Route.or_empty
                      (Route.member Route.username
                         (Route.user_of (Route.json rootRes))) in
           (well_formed_utf16 (search_query c u) = false \/
            h _ (Route.FetchSearch c u token) = None))
  end /\
  List.length (attempted h (Route.POST zod_url req X_BEARER_TOKEN)) <= 2.
Proof. exact (POST_settled zod_url h req X_BEARER_TOKEN). Qed.

(** ** The route: chronological order *)

Section SortByTime.

Import Route.

Lemma later_time x y : later x y = true -> (time_of y < time_of x)%Z.
Proof.
  unfold later, time_of.
  destruct (created_at x), (created_at y); try discriminate.
  apply Z.ltb_lt.
Qed.

Lemma not_later_time x y :
  created_at x <> None -> created_at y <> None ->
  later x y = false -> (time_of x <= time_of y)%Z.
Proof.
  unfold later, time_of.
  destruct (created_at x), (created_at y); try contradiction.
  intros _ _. apply Z.ltb_ge.
Qed.

Lemma insert_by_time_perm x l : Permutation (insert_by_time x l) (x :: l).
Proof.
  induction l as [|y r IH]; cbn [insert_by_time]; [reflexivity|].
  destruct (later x y); [|reflexivity].
  rewrite IH. apply perm_swap.
Qed.

Lemma sort_by_time_perm l : Permutation (sort_by_time l) l.
Proof.
  induction l as [|x r IH]; cbn [sort_by_time]; [reflexivity|].
  rewrite insert_by_time_perm. now constructor.
Qed.

Lemma insert_by_time_sorted x l :
  created_at x <> None -> Forall (fun t => created_at t <> None) l ->
  StronglySorted (fun a b => (time_of a <= time_of b)%Z) l ->
  StronglySorted (fun a b => (time_of a <= time_of b)%Z) (insert_by_time x l).
Proof.
  intros Hx Hall Hs. induction Hs as [|y r Hs IH Hy]; cbn [insert_by_time].
  - repeat constructor.
  - inversion Hall as [|? ? Hcy Hr]; subst.
    destruct (later x y) eqn:E.
    + constructor; [exact (IH Hr)|].
      apply (Permutation_Forall (Permutation_sym (insert_by_time_perm x r))).
      constructor; [|exact Hy]. apply later_time in E. lia.
    + assert (Hle := not_later_time x y Hx Hcy E).
      constructor; [now constructor|].
      constructor; [exact Hle|]. revert Hy. apply Forall_impl. intros; lia.
Qed.

Lemma insert_by_time_stable z x l :
  filter (fun t => (time_of t =? z)%Z) (insert_by_time x l)
  = filter (fun t => (time_of t =? z)%Z) (x :: l).
Proof.
  induction l as [|y r IH]; cbn [insert_by_time]; [reflexivity|].
  destruct (later x y) eqn:E; [|reflexivity].
  apply later_time in E. cbn [filter] in *. rewrite IH.
  destruct (Z.eqb_spec (time_of x) z), (Z.eqb_spec (time_of y) z);
    try reflexivity. lia.
Qed.

Lemma segments_of_posts l :
  filter (fun s => (0 <? List.length (text s))%nat) (map segment_of l)
  = map segment_of (filter has_text l).
Proof.
  induction l as [|t r IH]; [reflexivity|].
  cbn [map filter]. rewrite IH.
  assert (Hb : (0 <? List.length (text (segment_of t)))%nat = has_text t).
  { unfold has_text, segment_of. cbn [text].
    rewrite <- (cleanText_blank (or_empty (tweet_text t))).
    destruct (cleanText (or_empty (tweet_text t))) as [|c y] eqn:E;
      [reflexivity|].
    rewrite <- E. rewrite cleanText_not_blank; rewrite E;
      [reflexivity|discriminate]. }
  rewrite Hb. now destruct (has_text t).
Qed.

End SortByTime.

(** X8. Where every found post has a creation time that parses, sorting
    returns the same posts ordered by creation time, ascending, and posts
    with equal times keep the order of the response. *)
Theorem sort_by_time_sorted (l : list Route.Tweet) :
  Forall (fun t => Route.created_at t <> None) l ->
  Permutation (Route.sort_by_time l) l /\
  StronglySorted (fun a b => (time_of a <= time_of b)%Z) (Route.sort_by_time l) /\
  forall z, filter (fun t => (time_of t =? z)%Z) (Route.sort_by_time l)
            = filter (fun t => (time_of t =? z)%Z) l.
Proof.
  intros Hall. split; [apply sort_by_time_perm|]. split.
  - induction Hall as [|x r Hx Hr IH]; cbn [Route.sort_by_time];
      [constructor|].
    apply insert_by_time_sorted; [exact Hx| |exact IH].
    exact (Permutation_Forall (Permutation_sym (sort_by_time_perm r)) Hr).
  - intros z. clear Hall.
    induction l as [|x r IH]; cbn [Route.sort_by_time]; [reflexivity|].
    rewrite insert_by_time_stable. cbn [filter]. now rewrite IH.
Qed.

Lemma sort_by_time_sorted_witness :
  map Route.tweet_id (Route.sort_by_time sample_thread)
  = [lit "42"; lit "43"; lit "44"]
  /\ Permutation (Route.sort_by_time sample_thread) sample_thread.
Proof.
  split; [reflexivity|].
  refine (proj1 (sort_by_time_sorted sample_thread _)).
  repeat constructor; discriminate.
Defined.

(** What sorting does to posts whose creation times all parse. *)
Lemma sort_by_time_ordered (l : list Route.Tweet) :
  Forall (fun t => Route.created_at t <> None) l ->
  StronglySorted (fun a b => (time_of a <= time_of b)%Z) (Route.sort_by_time l) /\
  forall z, filter (fun t => (time_of t =? z)%Z) (Route.sort_by_time l)
            = filter (fun t => (time_of t =? z)%Z) l.
Proof.
  intros Hall. split.
  - induction Hall as [|x r Hx Hr IH]; cbn [Route.sort_by_time];
      [constructor|].
    apply insert_by_time_sorted; [exact Hx| |exact IH].
    exact (Permutation_Forall (Permutation_sym (sort_by_time_perm r)) Hr).
  - intros z. clear Hall.
    induction l as [|x r IH]; cbn [Route.sort_by_time]; [reflexivity|].
    rewrite insert_by_time_stable. cbn [filter]. now rewrite IH.
Qed.

(** X9. On the full path (root and search both succeed), where the creation
    time of every found post parses, the payload's segments are exactly the
    found posts that have a non-blank text, ordered by creation time
    (ascending, posts of equal time in the order of the response), each with
    the post's identifier and its cleaned text; the title counts those
    segments and the answer carries no warning. *)
Theorem POST_full_segments
    (zod_url : jsstring -> bool) (h : forall X, Route.fetchE X -> X)
    (req X_BEARER_TOKEN : option jsstring)
    (url postId token conversationId : jsstring) :
  Route.safeParse zod_url req = Some url ->
  Route.extractStatusId url = Some postId ->
  if_truthy X_BEARER_TOKEN = Some token ->
  let rootRes := h _ (Route.FetchRoot postId token) in
  Route.ok rootRes = true ->
  conversation_of (Route.json rootRes) = Some conversationId ->
  let searchRes :=
    h _ (Route.FetchSearch conversationId
           (Route.or_empty
              (Route.member Route.username (Route.user_of (Route.json rootRes))))
           token) in
  Route.ok searchRes = true ->
  let posts := found_posts (Route.json searchRes) in
  Forall (fun t => Route.created_at t <> None) posts ->
  exists p ordered,
    Route.run h (Route.POST zod_url req X_BEARER_TOKEN)
    = {| Route.status := 200; Route.body := Route.ThreadBody p None None |} /\
    Permutation ordered posts /\
    StronglySorted (fun a b => (time_of a <= time_of b)%Z) ordered /\
    (forall z, filter (fun t => (time_of t =? z)%Z) ordered
               = filter (fun t => (time_of t =? z)%Z) posts) /\
    segments p = map segment_of (filter has_text ordered) /\
    title p
    = match display_name (Route.json rootRes) with
      | Some n => n ++ lit " (" ++ of_nat (List.length (segments p))
                    ++ lit " posts)"
      | None => lit "Thread (" ++ of_nat (List.length (segments p))
                  ++ lit " posts)"
      end.
Proof.
  intros Hp Hf Ht rootRes Hr Hc searchRes Hs posts Hparse.
  destruct (sort_by_time_ordered posts Hparse) as [Hsorted Hstable].
  unfold Route.POST. rewrite Hp, Hf, (extractStatusId_truthy _ _ Hf), Ht.
  cbn [Route.run]. fold rootRes. rewrite Hr. cbn [negb].
  unfold conversation_of in Hc.
  destruct (if_truthy (Route.member Route.conversation_id
                         (Route.rootTweet_of (Route.json rootRes))));
    [|discriminate].
  destruct (if_truthy (Route.member Route.author_id
                         (Route.rootTweet_of (Route.json rootRes))));
    [|discriminate].
  injection Hc as ->. cbn [Route.run]. fold searchRes. rewrite Hs.
  cbn [negb Route.run].
  eexists. exists (Route.sort_by_time posts).
  split; [reflexivity|]. cbn [segments title].
  split; [apply sort_by_time_perm|]. split; [exact Hsorted|].
  split; [exact Hstable|]. split; [|reflexivity].
  exact (segments_of_posts (Route.sort_by_time posts)).
Qed.

Lemma POST_full_segments_witness :
  exists p,
    Route.run (Route.upstream (sample_root (Some (lit "42")) [])
                              (sample_search true sample_thread))
              (Route.POST (fun _ => true) (Some sample_url) (Some (lit "secret")))
    = {| Route.status := 200; Route.body := Route.ThreadBody p None None |}
    /\ map text (segments p) = [lit "first"; lit "second"]
    /\ title p = lit "Thread (2 posts)".
Proof.
  destruct (POST_full_segments (fun _ => true)
              (Route.upstream (sample_root (Some (lit "42")) [])
                              (sample_search true sample_thread))
              (Some sample_url) (Some (lit "secret"))
              sample_url (lit "42") (lit "secret") (lit "42")
              eq_refl eq_refl eq_refl eq_refl eq_refl eq_refl
              ltac:(repeat constructor; discriminate))
    as (p & ordered & E & _ & _ & _ & Hseg & Ht).
  exists p. split; [exact E|].
  assert (E' := E). vm_compute in E'. injection E' as <-.
  split; reflexivity.
Defined.

(** ** The page *)

Section DemoPage.

Lemma lines_blank s :
  blank s = true -> Forall (fun l => blank l = true) (lines s).
Proof.
  induction s as [|c r IH]; intros B.
  - repeat constructor.
  - cbn [blank forallb] in B. apply andb_true_iff in B as [Wc Br].
    specialize (IH Br). cbn [lines]. destruct (isNewline c).
    + now constructor.
    + destruct (lines r) as [|p ps]; cbn [cons_head].
      * repeat constructor. cbn. now rewrite Wc.
      * inversion IH as [|? ? Hp Hps]; subst. constructor; [|exact Hps].
        cbn [blank forallb]. now rewrite Wc.
Qed.

Lemma blank_surviving_nil s : blank s = true -> surviving_lines s = [].
Proof.
  intros B. unfold surviving_lines.
  assert (H := lines_blank s B). induction H as [|l ls Hl _ IH];
    [reflexivity|].
  cbn [map filter]. now rewrite (trim_blank l Hl).
Qed.

Lemma surviving_iff_trim s : surviving_lines s = [] <-> trim s = [].
Proof.
  split; [apply surviving_nil_trim|].
  intros E. apply blank_surviving_nil, trim_empty_blank, E.
Qed.

Lemma normalizeDemoText_not_nil pasted : normalizeDemoText pasted <> [].
Proof.
  destruct (normalizeDemoText_cases pasted) as [[_ ->]|(Hne & Ht & _)];
    [discriminate|].
  intros E. rewrite E in Ht. cbn in Ht. now apply Hne.
Qed.

Lemma lines_no_newline s :
  Forall (fun l => forallb (fun c => negb (isNewline c)) l = true) (lines s).
Proof.
  induction s as [|c r IH]; [repeat constructor|].
  cbn [lines]. destruct (isNewline c) eqn:Nc; [now constructor|].
  destruct (lines r) as [|p ps]; cbn [cons_head].
  - repeat constructor. cbn. now rewrite Nc.
  - inversion IH as [|? ? Hp Hps]; subst. constructor; [|exact Hps].
    cbn [forallb]. now rewrite Nc, Hp.
Qed.

Lemma trimStart_forallb (P : N -> bool) s :
  forallb P s = true -> forallb P (trimStart s) = true.
Proof.
  induction s as [|c r IH]; intros H; [reflexivity|].
  cbn [trimStart]. destruct (isWhiteSpace c); [|exact H].
  cbn [forallb] in H. apply andb_true_iff in H as [_ H]. exact (IH H).
Qed.

Lemma trim_forallb (P : N -> bool) s :
  forallb P s = true -> forallb P (trim s) = true.
Proof.
  intros H. apply trimStart_forallb in H. unfold trim.
  destruct (trimEnd_split (trimStart s)) as (w & E & _).
  rewrite E, forallb_app in H. now apply andb_true_iff in H as [H _].
Qed.

End DemoPage.

(** X10. The demo assembly never returns an empty list, so after "Load Demo"
    the page always has a payload titled "Demo Mode" whose segments are
    those of the demo text, the playback buttons are enabled, the error is
    cleared and the engine is stopped. *)
Theorem startDemo_can_listen (st : Page.Home) :
  normalizeDemoText (Page.demoText st) <> [] /\
  Page.canListen (Page.startDemo st) = true /\
  Page.segments_of (Page.payload (Page.startDemo st))
  = normalizeDemoText (Page.demoText st) /\
  Page.err (Page.startDemo st) = None /\
  Page.speech (Page.startDemo st) = UseSpeech.stop (Page.speech st).
Proof.
  assert (Hne := normalizeDemoText_not_nil (Page.demoText st)).
  split; [exact Hne|]. split; [|repeat split].
  unfold Page.canListen, Page.startDemo. cbn.
  now destruct (normalizeDemoText (Page.demoText st)).
Qed.

(** X11. The "Load Demo" button is enabled exactly when the demo text yields
    segments none of which is empty or whitespace-only; where it is
    disabled, the assembly would return the single empty segment. *)
Theorem demo_enabled_iff_not_blank (st : Page.Home) :
  (Page.demo_enabled st = true <->
   Forall (fun s => blank (text s) = false)
          (normalizeDemoText (Page.demoText st))) /\
  (Page.demo_enabled st = false ->
   normalizeDemoText (Page.demoText st)
   = [ {| id := lit "demo-0"; text := [] |} ]).
Proof.
  unfold Page.demo_enabled.
  destruct (normalizeDemoText_cases (Page.demoText st))
    as [[Hnil E]|(Hne & Ht & _)].
  - rewrite E. rewrite (proj1 (surviving_iff_trim _) Hnil). cbn [truthy].
    split; [|reflexivity]. split; [discriminate|].
    intros H. inversion H as [|? ? B _]. discriminate B.
  - assert (Htrim : trim (Page.demoText st) <> [])
      by (intros E; apply Hne, surviving_iff_trim, E).
    destruct (trim (Page.demoText st)) as [|c y]; [contradiction|].
    cbn [truthy]. split; [|discriminate]. split; [|reflexivity].
    intros _. assert (H := surviving_trimmed (Page.demoText st)).
    rewrite <- Ht in H. apply Forall_map in H. revert H.
    apply Forall_impl. tauto.
Qed.

(** X12. No segment of a demo payload contains a newline character: every
    segment is (part of) one line of the pasted text. *)
Theorem normalizeDemoText_single_lines (pasted : jsstring) :
  Forall (fun s => forallb (fun c => negb (isNewline c)) (text s) = true)
         (normalizeDemoText pasted).
Proof.
  destruct (normalizeDemoText_cases pasted) as [[_ ->]|(_ & Ht & _)].
  - repeat constructor.
  - apply (proj1 (Forall_map text
               (fun t => forallb (fun c => negb (isNewline c)) t = true) _)).
    rewrite Ht. unfold surviving_lines.
    apply Forall_forall. intros t Hin. apply filter_In in Hin as [Hin _].
    apply in_map_iff in Hin as (l & <- & Hl). apply trim_forallb.
    exact (proj1 (Forall_forall _ _) (lines_no_newline pasted) l Hl).
Qed.

Section ClassNames.

Import Page.

Lemma filter_Boolean_app a b :
  filter_Boolean (a ++ b) = filter_Boolean a ++ filter_Boolean b.
Proof.
  induction a as [|c a IH]; [reflexivity|].
  cbn [app filter_Boolean]. destruct (if_truthy c); [|exact IH].
  cbn [app]. now rewrite IH.
Qed.

Lemma filter_Boolean_truthy l : Forall (fun s => s <> []) (filter_Boolean l).
Proof.
  induction l as [|c l IH]; [constructor|].
  cbn [filter_Boolean]. destruct c as [[|x s]|]; cbn [if_truthy];
    try exact IH.
  constructor; [discriminate|exact IH].
Qed.

Lemma join_nil sep l :
  Forall (fun s => s <> []) l -> join sep l = [] -> l = [].
Proof.
  intros H. destruct H as [|x l Hx Hl]; [reflexivity|].
  cbn [join]. destruct l; intros E; [contradiction|].
  destruct x; [contradiction|discriminate].
Qed.

Lemma join_app sep x y :
  x <> [] -> y <> [] -> join sep (x ++ y) = join sep x ++ sep ++ join sep y.
Proof.
  intros Hx Hy. induction x as [|a x IH]; [contradiction|].
  destruct x as [|b x].
  - cbn [app join]. now destruct y.
  - change (join sep ((a :: b :: x) ++ y))
      with (a ++ sep ++ join sep ((b :: x) ++ y)).
    rewrite IH by discriminate.
    change (join sep (a :: b :: x)) with (a ++ sep ++ join sep (b :: x)).
    now rewrite <- !app_assoc.
Qed.

End ClassNames.

Lemma cx_concat (a b : list (option jsstring)) :
  Page.cx (a ++ b)
  = match Page.cx a, Page.cx b with
    | [], y => y
    | x, [] => x
    | x, y => x ++ lit " " ++ y
    end.
Proof.
  unfold Page.cx. rewrite filter_Boolean_app.
  assert (Ha := filter_Boolean_truthy a).
  assert (Hb := filter_Boolean_truthy b).
  destruct (Page.filter_Boolean a) as [|x xs] eqn:Ea.
  - reflexivity.
  - destruct (Page.filter_Boolean b) as [|y ys] eqn:Eb.
    + rewrite app_nil_r.
      now destruct (Page.join (lit " ") (x :: xs)).
    + rewrite join_app by discriminate.
      destruct (Page.join (lit " ") (x :: xs)) eqn:Jx;
        [apply (join_nil _ _ Ha) in Jx; discriminate|].
      destruct (Page.join (lit " ") (y :: ys)) eqn:Jy;
        [apply (join_nil _ _ Hb) in Jy; discriminate|].
      reflexivity.
Qed.

(** X13. [cx] keeps exactly the truthy classes, separated by single spaces:
    a class that is [false], [null], [undefined] or the empty string
    contributes nothing, wherever it stands; a non-empty class name alone
    is returned as it is; and [cx] of two lists put together is the two
    results joined by one space, or just the other result where one of them
    is empty. *)
Theorem cx_keeps_truthy :
  Page.cx [] = [] /\
  Page.cx [None] = [] /\
  Page.cx [Some []] = [] /\
  (forall s, s <> [] -> Page.cx [Some s] = s) /\
  (forall a b, Page.cx (a ++ None :: b) = Page.cx (a ++ b)) /\
  (forall a b, Page.cx (a ++ Some [] :: b) = Page.cx (a ++ b)) /\
  (forall a b,
     Page.cx (a ++ b)
     = match Page.cx a, Page.cx b with
       | [], y => y
       | x, [] => x
       | x, y => x ++ lit " " ++ y
       end).
Proof.
  split; [reflexivity|]. split; [reflexivity|]. split; [reflexivity|].
  split; [intros [|c s] Hne; [contradiction|reflexivity]|].
  split; [|split; [|exact cx_concat]];
    intros a b; unfold Page.cx; now rewrite !filter_Boolean_app.
Qed.

Example cx_sample :
  Page.cx [Some (lit "btn"); None; Some []; Some (lit "primary"); None]
  = lit "btn primary".
Proof. reflexivity. Qed.



(** ** The engine: transport controls *)

Section Controls.

Import UseSpeech.

Variable segs : list ThreadSegment.

Lemma speakFrom_speaking r i h synth seg :
  synthRef h = Some synth -> get segs i = Some seg ->
  speaking segs i (speakFrom segs r i h) /\
  index (speakFrom segs r i h) = i /\
  status (speakFrom segs r i h) = status h /\
  allocated (speakFrom segs r i h) = S (allocated h).
Proof.
  intros Hs Hg.
  destruct (speakFrom_submits segs r i h synth seg Hs Hg)
    as (u & E & _ & Ht & Hi & _).
  rewrite E. cbn [index status allocated]. split; [|repeat split].
  eexists. exists u, seg. cbn [synthRef]. split; [reflexivity|].
  cbn [queue]. now repeat split.
Qed.

Lemma speakFrom_out_of_range r i h synth :
  synthRef h = Some synth -> get segs i = None ->
  speakFrom segs r i h = setStatus ended (setSynth (cancel synth) h).
Proof. intros Hs Hg. unfold speakFrom. rewrite Hs. cbn. now rewrite Hg. Qed.

Lemma speakFrom_no_backend r i h :
  synthRef h = None -> speakFrom segs r i h = setStatus error h.
Proof. intros Hs. unfold speakFrom. now rewrite Hs. Qed.

(** The four things [play] can do. *)
Lemma play_shape r h :
  play segs r h = h \/
  (synthRef h = None /\ play segs r h = setStatus error h) \/
  (exists synth, synthRef h = Some synth /\
     play segs r h = setStatus playing (setSynth (synth_resume synth) h)) \/
  play segs r h = speakFrom segs r (r_index r) h.
Proof.
  unfold play. destruct segs; [now left|].
  destruct (synthRef h) as [synth|] eqn:Hs; [|right; left; now split].
  destruct (is_paused synth); [|now right; right; right].
  right; right; left. now exists synth.
Qed.

(** The two things [skip] can do. *)
Lemma skip_shape r delta h :
  skip segs r delta h = h \/
  (segs <> [] /\
   skip segs r delta h
   = speakFrom segs r (clamp segs (r_index r + delta)) (stop h)).
Proof.
  unfold skip, clamp. destruct segs; [now left|].
  right. split; [discriminate|reflexivity].
Qed.

(** [play] on a non-empty list with a backend: resume, or speak-from. *)
Lemma play_cases r h :
  segs <> [] ->
  forall synth, synthRef h = Some synth ->
    (is_paused synth = true ->
       play segs r h = setStatus playing (setSynth (synth_resume synth) h)) /\
    (is_paused synth = false ->
       play segs r h = speakFrom segs r (r_index r) h).
Proof.
  intros Hne synth Hs. unfold play.
  destruct segs; [contradiction|]. rewrite Hs.
  split; intros ->; reflexivity.
Qed.

End Controls.

(** X15. [stop] keeps [currentIndex], the rate and the voice, leaves nothing
    in flight and the backend's paused flag as it was, and sets the status
    to idle when there is a backend; without one it changes nothing.
    Stopping twice is the same as stopping once. *)
Theorem stop_keeps_position (h : UseSpeech.Hook) :
  UseSpeech.index (UseSpeech.stop h) = UseSpeech.index h /\
  UseSpeech.rate (UseSpeech.stop h) = UseSpeech.rate h /\
  UseSpeech.voiceURI (UseSpeech.stop h) = UseSpeech.voiceURI h /\
  UseSpeech.in_flight (UseSpeech.stop h) = None /\
  UseSpeech.stop (UseSpeech.stop h) = UseSpeech.stop h /\
  (forall synth, UseSpeech.synthRef h = Some synth ->
     UseSpeech.status (UseSpeech.stop h) = UseSpeech.idle /\
     UseSpeech.synthRef (UseSpeech.stop h)
     = Some {| UseSpeech.queue := [];
               UseSpeech.is_paused := UseSpeech.is_paused synth;
               UseSpeech.voices := UseSpeech.voices synth |}) /\
  (UseSpeech.synthRef h = None -> UseSpeech.stop h = h).
Proof.
  unfold UseSpeech.stop, UseSpeech.in_flight.
  destruct (UseSpeech.synthRef h) as [synth|] eqn:Hs; cbn.
  - repeat split; try discriminate. now injection H as <-.
  - rewrite Hs. repeat split; discriminate.
Qed.

(** X16. [restart] sets [currentIndex] to 0 in every case.  With a backend
    and a non-empty list the utterance for segment 0 is then the only one
    queued; with an empty list the status becomes ended; without a backend
    the status becomes error. *)
Theorem restart_from_top
    (segs : list ThreadSegment) (r : UseSpeech.Render) (h : UseSpeech.Hook) :
  let h' := UseSpeech.restart segs r h in
  UseSpeech.index h' = 0%Z /\
  (forall synth, UseSpeech.synthRef h = Some synth ->
     (segs <> [] -> speaking segs 0 h') /\
     (segs = [] -> UseSpeech.status h' = UseSpeech.ended /\
                   UseSpeech.in_flight h' = None)) /\
  (UseSpeech.synthRef h = None -> UseSpeech.status h' = UseSpeech.error).
Proof.
  intros h'. unfold h', UseSpeech.restart.
  destruct (UseSpeech.synthRef h) as [synth|] eqn:Hs.
  - assert (Hs' : UseSpeech.synthRef (UseSpeech.setIndex 0 (UseSpeech.stop h))
                  = Some (UseSpeech.cancel synth))
      by (rewrite (stop_available h synth Hs); reflexivity).
    destruct segs as [|s l] eqn:Esegs.
    + rewrite (speakFrom_out_of_range [] r 0 _ _ Hs' eq_refl).
      split; [reflexivity|]. split; [|discriminate].
      intros ? _. split; [contradiction|]. intros _. split; reflexivity.
    + rewrite <- Esegs.
      assert (Hg : get segs 0 = Some s) by now rewrite Esegs.
      destruct (speakFrom_speaking segs r 0 _ _ _ Hs' Hg) as (Hsp & Hi & _).
      split; [exact Hi|]. split; [|discriminate].
      intros ? _. split; [intros _; exact Hsp|]. rewrite Esegs. discriminate.
  - assert (Hs' : UseSpeech.synthRef (UseSpeech.setIndex 0 (UseSpeech.stop h))
                  = None)
      by (unfold UseSpeech.stop; rewrite Hs; exact Hs).
    rewrite (speakFrom_no_backend segs r 0 _ Hs').
    split; [reflexivity|]. split; [discriminate|reflexivity].
Qed.

(** X17. [play] with a backend that is not paused and a non-empty list
    speaks from the index the calling render shows: where that index names a
    segment, its utterance becomes the only one queued and [currentIndex] is
    that index; where it does not (the list became shorter), the status
    becomes ended and nothing is queued.  With an empty list [play] changes
    nothing; without a backend it only sets the status to error. *)
Theorem play_starts
    (segs : list ThreadSegment) (r : UseSpeech.Render) (h : UseSpeech.Hook) :
  let h' := UseSpeech.play segs r h in
  (segs = [] -> h' = h) /\
  (segs <> [] -> UseSpeech.synthRef h = None ->
     h' = UseSpeech.setStatus UseSpeech.error h) /\
  (segs <> [] ->
   forall synth, UseSpeech.synthRef h = Some synth ->
     UseSpeech.is_paused synth = false ->
     match get segs (UseSpeech.r_index r) with
     | Some _ =>
         speaking segs (UseSpeech.r_index r) h' /\
         UseSpeech.index h' = UseSpeech.r_index r
     | None =>
         UseSpeech.status h' = UseSpeech.ended /\
         UseSpeech.in_flight h' = None /\
         UseSpeech.index h' = UseSpeech.index h
     end).
Proof.
  intros h'. unfold h', UseSpeech.play. split; [now intros ->|].
  split.
  - intros Hne Hs. destruct segs; [contradiction|]. now rewrite Hs.
  - intros Hne synth Hs Hp.
    destruct segs as [|s l] eqn:Esegs; [contradiction|]. rewrite <- Esegs.
    rewrite Hs, Hp.
    destruct (get segs (UseSpeech.r_index r)) as [seg|] eqn:Hg.
    + destruct (speakFrom_speaking segs r _ h synth seg Hs Hg) as (H1 & H2 & _).
      now split.
    + rewrite (speakFrom_out_of_range segs r _ h synth Hs Hg).
      repeat split.
Qed.

Lemma play_starts_witness :
  speaking three_segments 0
    (UseSpeech.step three_segments (UseSpeech.mount (Some silent))
                    UseSpeech.Play).
Proof.
  destruct (play_starts three_segments
              (UseSpeech.render_of (UseSpeech.mount (Some silent)))
              (UseSpeech.mount (Some silent))) as (_ & _ & H).
  exact (proj1 (H ltac:(discriminate) silent eq_refl eq_refl)).
Defined.

(** X18. [pause()] followed by [play()] never submits an utterance: with a
    backend and a non-empty list the two calls only leave the backend
    resumed and the status playing.  In particular, from a state with
    nothing in flight (idle, ended or error) the engine then shows playing
    while nothing is being spoken. *)
Theorem pause_then_play_submits_nothing
    (segs : list ThreadSegment) (h : UseSpeech.Hook)
    (synth : UseSpeech.SpeechSynthesis) :
  segs <> [] ->
  UseSpeech.synthRef h = Some synth ->
  let h' := UseSpeech.steps segs h [UseSpeech.Pause; UseSpeech.Play] in
  h' = UseSpeech.setStatus UseSpeech.playing
         (UseSpeech.setSynth (UseSpeech.synth_resume synth) h) /\
  UseSpeech.allocated h' = UseSpeech.allocated h /\
  (UseSpeech.queue synth = [] ->
   UseSpeech.status h' = UseSpeech.playing /\ UseSpeech.in_flight h' = None).
Proof.
  intros Hne Hs h'.
  assert (E : h' = UseSpeech.setStatus UseSpeech.playing
                     (UseSpeech.setSynth (UseSpeech.synth_resume synth) h)).
  { unfold h'. cbn [UseSpeech.steps UseSpeech.step].
    unfold UseSpeech.pause. rewrite Hs. unfold UseSpeech.play.
    destruct segs; [contradiction|]. reflexivity. }
  rewrite E. split; [reflexivity|]. split; [reflexivity|].
  intros Hq. split; [reflexivity|].
  unfold UseSpeech.in_flight. cbn. now rewrite Hq.
Qed.

Lemma pause_then_play_submits_nothing_witness :
  let h' := UseSpeech.steps three_segments (UseSpeech.mount (Some silent))
              [UseSpeech.Pause; UseSpeech.Play] in
  UseSpeech.status h' = UseSpeech.playing /\ UseSpeech.in_flight h' = None.
Proof.
  destruct (pause_then_play_submits_nothing three_segments
              (UseSpeech.mount (Some silent)) silent
              ltac:(discriminate) eq_refl) as (_ & _ & H).
  exact (H eq_refl).
Defined.

(** X19. Clicking segment [i] in the list does not jump to it.  The handler
    calls [stop], [setIndex(i)] and [play] of the render on screen, and that
    [play] still reads the render's own index: with a backend that is not
    paused, the utterance submitted is the one for the segment the render
    shows, and [currentIndex] ends up there again, whatever [i] is.  With a
    paused backend the handler leaves [currentIndex] at [i] and the status
    playing, with nothing queued. *)
Theorem selectSegment_replays_current
    (segs : list ThreadSegment) (h : UseSpeech.Hook)
    (synth : UseSpeech.SpeechSynthesis) (seg : ThreadSegment) (i : Z) :
  UseSpeech.synthRef h = Some synth ->
  get segs (UseSpeech.index h) = Some seg ->
  let h' := Page.selectSegment segs (UseSpeech.render_of h) i h in
  (UseSpeech.is_paused synth = false ->
     UseSpeech.index h' = UseSpeech.index h /\
     speaking segs (UseSpeech.index h) h') /\
  (UseSpeech.is_paused synth = true ->
     UseSpeech.index h' = i /\
     UseSpeech.status h' = UseSpeech.playing /\
     UseSpeech.in_flight h' = None).
Proof.
  intros Hs Hg h'.
  assert (Hne : segs <> []).
  { intros ->. unfold get in Hg.
    destruct (UseSpeech.index h <? 0)%Z; [discriminate|].
    now destruct (Z.to_nat (UseSpeech.index h)). }
  assert (Hs' : UseSpeech.synthRef (UseSpeech.setIndex i (UseSpeech.stop h))
                = Some (UseSpeech.cancel synth))
    by (rewrite (stop_available h synth Hs); reflexivity).
  unfold h', Page.selectSegment.
  destruct (play_cases segs (UseSpeech.render_of h)
              (UseSpeech.setIndex i (UseSpeech.stop h)) Hne _ Hs')
    as [Hpaused Hplay].
  cbn [UseSpeech.cancel UseSpeech.is_paused] in Hpaused, Hplay. split.
  - intros Hp. rewrite (Hplay Hp). cbn [UseSpeech.render_of UseSpeech.r_index].
    destruct (speakFrom_speaking segs (UseSpeech.render_of h)
                (UseSpeech.index h) _ _ _ Hs' Hg) as (H1 & H2 & _).
    now split.
  - intros Hp. rewrite (Hpaused Hp). unfold UseSpeech.in_flight.
    cbn. repeat split.
Qed.

Lemma selectSegment_replays_current_witness :
  UseSpeech.index
    (Page.selectSegment three_segments (UseSpeech.render_of first_playing)
                        2 first_playing) = 0%Z.
Proof.
  destruct (selectSegment_replays_current three_segments first_playing _ _ 2
              eq_refl eq_refl) as [H _].
  exact (proj1 (H eq_refl)).
Defined.

(** X20. A rate chosen while a thread plays does not reach the utterances
    that auto-advance submits: the utterance a completion submits has the
    rate (and the whole render) its predecessor was created with, whatever
    the rate cell holds by then.  A skip, in contrast, uses the rate cell. *)
Theorem advance_keeps_captured_rate
    (segs : list ThreadSegment) (h : UseSpeech.Hook)
    (synth : UseSpeech.SpeechSynthesis)
    (u : UseSpeech.SpeechSynthesisUtterance)
    (q : list UseSpeech.SpeechSynthesisUtterance)
    (seg' : ThreadSegment) (v : Q) :
  UseSpeech.synthRef h = Some synth ->
  UseSpeech.queue synth = u :: q ->
  get segs (UseSpeech.u_startIndex u + 1) = Some seg' ->
  (exists u',
     UseSpeech.in_flight
       (UseSpeech.step segs (UseSpeech.setRate v h) UseSpeech.Ended) = Some u' /\
     UseSpeech.u_rate u' = UseSpeech.r_rate (UseSpeech.u_render u) /\
     UseSpeech.u_render u' = UseSpeech.u_render u) /\
  (forall delta, exists u',
     UseSpeech.in_flight
       (UseSpeech.step segs (UseSpeech.setRate v h) (UseSpeech.Skip delta))
     = Some u' /\
     UseSpeech.u_rate u' = v).
Proof.
  intros Hs Hq Hg.
  assert (Hr := get_Some_range segs _ _ Hg).
  assert (Hne : segs <> []) by (intros ->; cbn in Hr; lia).
  split.
  - cbn [UseSpeech.step]. unfold UseSpeech.in_flight at 2.
    cbn [UseSpeech.setRate UseSpeech.synthRef]. rewrite Hs, Hq.
    cbn [hd_error]. unfold UseSpeech.onend.
    destruct (Z.ltb_spec (UseSpeech.u_startIndex u + 1)
                (Z.of_nat (List.length segs))); [|lia].
    unfold UseSpeech.speakFrom, UseSpeech.after_dequeue.
    cbn [UseSpeech.setRate UseSpeech.synthRef UseSpeech.setIndex].
    rewrite Hs. cbn. rewrite Hg. cbn.
    eexists. split; [reflexivity|]. split; reflexivity.
  - intros delta. cbn [UseSpeech.step]. unfold UseSpeech.skip.
    destruct segs as [|s l] eqn:Esegs; [contradiction|]. rewrite <- Esegs.
    set (next := Z.min _ _).
    assert (Hn : (0 <= next < Z.of_nat (List.length segs))%Z).
    { unfold next. rewrite Esegs. cbn [List.length]. lia. }
    destruct (get_in_range segs next Hn) as [seg Hseg].
    unfold UseSpeech.speakFrom, UseSpeech.stop.
    cbn [UseSpeech.setRate UseSpeech.synthRef]. rewrite Hs. cbn.
    rewrite Hseg. cbn. eexists. split; reflexivity.
Qed.

Lemma advance_keeps_captured_rate_witness :
  exists u',
    UseSpeech.in_flight
      (UseSpeech.step three_segments
         (UseSpeech.setRate (3 # 2) first_playing) UseSpeech.Ended) = Some u' /\
    UseSpeech.u_rate u' = 1%Q.
Proof.
  destruct (advance_keeps_captured_rate three_segments first_playing _ _ _ _
              (3 # 2)%Q eq_refl eq_refl eq_refl) as [(u' & E & Hr & _) _].
  exists u'. split; [exact E|exact Hr].
Defined.

(** X21. After a failure, [play] retries the segment that failed: with the
    utterance for [currentIndex] alone in the queue of a backend that is not
    paused, the error event sets the status to error and leaves
    [currentIndex] and nothing in flight (no auto-advance), and a following
    [play] submits an utterance for that same segment. *)
Theorem failure_then_play_retries
    (segs : list ThreadSegment) (h : UseSpeech.Hook)
    (synth : UseSpeech.SpeechSynthesis)
    (u : UseSpeech.SpeechSynthesisUtterance) (seg : ThreadSegment) :
  UseSpeech.synthRef h = Some synth ->
  UseSpeech.queue synth = [u] ->
  UseSpeech.is_paused synth = false ->
  get segs (UseSpeech.index h) = Some seg ->
  let h1 := UseSpeech.step segs h UseSpeech.Failed in
  let h2 := UseSpeech.step segs h1 UseSpeech.Play in
  UseSpeech.status h1 = UseSpeech.error /\
  UseSpeech.index h1 = UseSpeech.index h /\
  UseSpeech.in_flight h1 = None /\
  UseSpeech.allocated h1 = UseSpeech.allocated h /\
  speaking segs (UseSpeech.index h) h2 /\
  UseSpeech.index h2 = UseSpeech.index h.
Proof.
  intros Hs Hq Hp Hg h1 h2.
  assert (E1 : h1 = UseSpeech.setStatus UseSpeech.error
                      (UseSpeech.setSynth (UseSpeech.dequeue synth) h)).
  { unfold h1. cbn [UseSpeech.step]. unfold UseSpeech.in_flight.
    rewrite Hs, Hq. cbn [hd_error]. unfold UseSpeech.after_dequeue.
    now rewrite Hs. }
  assert (Hne : segs <> []).
  { intros ->. unfold get in Hg.
    destruct (UseSpeech.index h <? 0)%Z; [discriminate|].
    now destruct (Z.to_nat (UseSpeech.index h)). }
  assert (Hs1 : UseSpeech.synthRef h1 = Some (UseSpeech.dequeue synth))
    by now rewrite E1.
  destruct (play_cases segs (UseSpeech.render_of h1) h1 Hne _ Hs1) as [_ Hplay].
  assert (Hi1 : UseSpeech.index h1 = UseSpeech.index h) by now rewrite E1.
  split; [now rewrite E1|]. split; [exact Hi1|].
  split; [rewrite E1; unfold UseSpeech.in_flight; cbn; now rewrite Hq|].
  split; [now rewrite E1|].
  unfold h2. cbn [UseSpeech.step]. rewrite (Hplay Hp).
  cbn [UseSpeech.render_of UseSpeech.r_index]. rewrite Hi1.
  destruct (speakFrom_speaking segs (UseSpeech.render_of h1)
              (UseSpeech.index h) h1 _ seg Hs1 Hg) as (H1 & H2 & _).
  now split.
Qed.

Lemma failure_then_play_retries_witness :
  speaking three_segments 0
    (UseSpeech.steps three_segments first_playing
       [UseSpeech.Failed; UseSpeech.Play]).
Proof.
  destruct (failure_then_play_retries three_segments first_playing _ _ _
              eq_refl eq_refl eq_refl eq_refl) as (_ & _ & _ & _ & H & _).
  exact H.
Defined.

(** ** The engine: whole runs *)

Section Runs.

Import UseSpeech.

Variable segs : list ThreadSegment.

Lemma skipn_nth_error {A} (l : list A) k x :
  nth_error l k = Some x -> skipn k l = x :: skipn (S k) l.
Proof.
  revert k. induction l as [|a l IH]; intros [|k] H; try discriminate.
  - now injection H as ->.
  - cbn [skipn]. exact (IH k H).
Qed.

Lemma get_nat k seg :
  get segs (Z.of_nat k) = Some seg -> nth_error segs k = Some seg.
Proof.
  unfold get. destruct (Z.ltb_spec (Z.of_nat k) 0); [lia|].
  now rewrite Nat2Z.id.
Qed.

(** From the utterance for segment [k] in flight, completions alone play
    the rest of the list. *)
Lemma plays_through_from n :
  forall k h,
    n = List.length segs - k ->
    speaking segs (Z.of_nat k) h ->
    map u_text (fired segs h (repeat Ended n)) = map text (skipn k segs) /\
    status (steps segs h (repeat Ended n)) = ended /\
    in_flight (steps segs h (repeat Ended n)) = None.
Proof.
  induction n as [|m IH]; intros k h Hn (synth & u & seg & Hs & Hq & Hk & Hg & Ht).
  - apply get_Some_range in Hg. lia.
  - assert (Hr := get_Some_range segs _ _ Hg).
    assert (Hfl : in_flight h = Some u)
      by (unfold in_flight; now rewrite Hs, Hq).
    cbn [repeat fired steps fires]. rewrite Hfl.
    rewrite (skipn_nth_error segs k seg (get_nat k seg Hg)).
    cbn [map]. rewrite Ht.
    assert (Hstep : step segs h Ended = onend segs u (after_dequeue h))
      by (cbn [step]; now rewrite Hfl).
    assert (Hd : synthRef (after_dequeue h) = Some (dequeue synth))
      by (unfold after_dequeue; now rewrite Hs).
    rewrite Hstep. unfold onend. rewrite Hk.
    destruct (Z.ltb_spec (Z.of_nat k + 1) (Z.of_nat (List.length segs)))
      as [Hlt|Hge].
    + destruct (get_in_range segs (Z.of_nat k + 1)) as [seg' Hg']; [lia|].
      destruct (speakFrom_speaking segs (u_render u) (Z.of_nat k + 1)
                  (setIndex (Z.of_nat k + 1) (after_dequeue h)) _ seg' Hd Hg')
        as (Hsp & _).
      replace (Z.of_nat k + 1)%Z with (Z.of_nat (S k)) in * by lia.
      destruct (IH (S k) _ ltac:(lia) Hsp) as (Hf & Hst & Hfin).
      rewrite Hf. now repeat split.
    + assert (m = 0) by lia. subst m. cbn [repeat fired steps map].
      rewrite skipn_all2 by lia. split; [reflexivity|]. split; [reflexivity|].
      unfold in_flight, after_dequeue. rewrite Hs. cbn. now rewrite Hq.
Qed.

(** A speak-from leaves at most one utterance queued. *)
Lemma single_flight_speakFrom r i h : single_flight (speakFrom segs r i h).
Proof.
  unfold speakFrom, single_flight.
  destruct (synthRef h) as [synth|] eqn:Hs; cbn.
  - destruct (get segs i); cbn; intros ? [= <-]; cbn; lia.
  - intros ? E. congruence.
Qed.

Lemma single_flight_shrink h h' :
  single_flight h ->
  (forall s', synthRef h' = Some s' ->
     exists s, synthRef h = Some s /\
               List.length (queue s') <= List.length (queue s)) ->
  single_flight h'.
Proof.
  intros H Hq s' Hs'. destruct (Hq s' Hs') as (s & Hs & Hle).
  specialize (H s Hs). lia.
Qed.

Lemma single_flight_dequeue h : single_flight h -> single_flight (after_dequeue h).
Proof.
  intros H. apply (single_flight_shrink h); [exact H|].
  unfold after_dequeue. destruct (synthRef h) as [synth|] eqn:Hs.
  - cbn. intros ? [= <-]. exists synth. split; [reflexivity|].
    cbn. destruct (queue synth); cbn; lia.
  - intros s' E. congruence.
Qed.

Lemma single_flight_step h a :
  single_flight h -> single_flight (step segs h a).
Proof.
  intros H.
  assert (Hsame : forall h', synthRef h' = synthRef h -> single_flight h').
  { intros h' Es. apply (single_flight_shrink h); [exact H|].
    intros s' E. exists s'. rewrite <- Es. split; [exact E|lia]. }
  destruct a; cbn [step]; try (apply Hsame; reflexivity).
  - unfold play. destruct segs eqn:Esegs; [exact H|]. rewrite <- Esegs.
    destruct (synthRef h) as [synth|] eqn:Hs.
    + destruct (is_paused synth); [|apply single_flight_speakFrom].
      apply (single_flight_shrink h); [exact H|].
      cbn. intros ? [= <-]. exists synth. split; [exact Hs|cbn; lia].
    + apply Hsame. exact Hs.
  - unfold pause. destruct (synthRef h) as [synth|] eqn:Hs; [|exact H].
    apply (single_flight_shrink h); [exact H|].
    cbn. intros ? [= <-]. exists synth. split; [exact Hs|cbn; lia].
  - apply single_flight_speakFrom.
  - unfold skip. destruct segs eqn:Esegs; [exact H|]. rewrite <- Esegs.
    apply single_flight_speakFrom.
  - unfold stop. destruct (synthRef h) as [synth|] eqn:Hs; [|exact H].
    intros ? [= <-]. cbn. lia.
  - destruct (in_flight h); [|exact H]. apply Hsame. reflexivity.
  - destruct (in_flight h) as [u|]; [|exact H]. unfold onend.
    destruct (u_startIndex u + 1 <? Z.of_nat (List.length segs))%Z.
    + apply single_flight_speakFrom.
    + apply (single_flight_shrink (after_dequeue h));
        [now apply single_flight_dequeue|].
      intros s' E. exists s'. split; [exact E|lia].
  - destruct (in_flight h) as [u|]; [|exact H].
    apply (single_flight_shrink (after_dequeue h));
      [now apply single_flight_dequeue|].
    intros s' E. exists s'. split; [exact E|lia].
Qed.

(** A speak-from at a valid position keeps every index valid. *)
Lemma indexes_ok_speakFrom r i h :
  in_range segs (index h) -> in_range segs i ->
  indexes_ok segs (speakFrom segs r i h).
Proof.
  intros Hh Hi. unfold speakFrom, indexes_ok.
  destruct (synthRef h) as [synth|] eqn:Hs; cbn.
  - destruct (get segs i); cbn.
    + split; [exact Hi|]. intros ? [= <-]. cbn.
      constructor; [exact Hi|constructor].
    + split; [exact Hh|]. intros ? [= <-]. constructor.
  - split; [exact Hh|]. intros ? E. congruence.
Qed.

Lemma indexes_ok_set h h' :
  indexes_ok segs h -> index h' = index h ->
  (forall s', synthRef h' = Some s' ->
     exists s, synthRef h = Some s /\ incl (queue s') (queue s)) ->
  indexes_ok segs h'.
Proof.
  intros [Hi Hq] Ei Hsub. split; [now rewrite Ei|].
  intros s' Hs'. destruct (Hsub s' Hs') as (s & Hs & Hin).
  apply Forall_forall. intros u Hu.
  exact (proj1 (Forall_forall _ _) (Hq s Hs) u (Hin u Hu)).
Qed.

Lemma indexes_ok_dequeue h : indexes_ok segs h -> indexes_ok segs (after_dequeue h).
Proof.
  intros H. apply (indexes_ok_set h); [exact H| |].
  - unfold after_dequeue. now destruct (synthRef h).
  - unfold after_dequeue. destruct (synthRef h) as [synth|] eqn:Hs.
    + cbn. intros ? [= <-]. exists synth. split; [reflexivity|].
      cbn. destruct (queue synth); [apply incl_refl|apply incl_tl, incl_refl].
    + intros s' E. congruence.
Qed.

Lemma in_flight_in_range h u :
  indexes_ok segs h -> in_flight h = Some u -> in_range segs (u_startIndex u).
Proof.
  intros [_ Hq] Hu. unfold in_flight in Hu.
  destruct (synthRef h) as [synth|]; [|discriminate].
  specialize (Hq synth eq_refl).
  destruct (queue synth); [discriminate|]. injection Hu as <-.
  now inversion Hq.
Qed.

Lemma indexes_ok_step h a :
  indexes_ok segs h -> from_page segs a -> indexes_ok segs (step segs h a).
Proof.
  intros H Ha. assert (Hi := proj1 H).
  assert (Hsame : forall h', index h' = index h ->
                             synthRef h' = synthRef h -> indexes_ok segs h').
  { intros h' Ei Es. apply (indexes_ok_set h); [exact H|exact Ei|].
    intros s' E. exists s'. rewrite <- Es. split; [exact E|apply incl_refl]. }
  assert (Hstop : in_range segs (index (stop h)))
    by (unfold stop; now destruct (synthRef h)).
  destruct a; cbn [step]; try (apply Hsame; reflexivity).
  - destruct (play_shape segs (render_of h) h)
      as [-> | [[Hs ->] | [(synth & Hs & ->) | ->]]].
    + exact H.
    + apply Hsame; reflexivity.
    + apply (indexes_ok_set h); [exact H|reflexivity|].
      cbn. intros ? [= <-]. exists synth. split; [exact Hs|apply incl_refl].
    + now apply indexes_ok_speakFrom.
  - unfold pause. destruct (synthRef h) as [synth|] eqn:Hs; [|exact H].
    apply (indexes_ok_set h); [exact H|reflexivity|].
    cbn. intros ? [= <-]. exists synth. split; [exact Hs|apply incl_refl].
  - unfold restart. unfold in_range in Hi.
    apply indexes_ok_speakFrom; cbn; unfold in_range; lia.
  - destruct (skip_shape segs (render_of h) delta h) as [-> | [Hne ->]];
      [exact H|].
    apply indexes_ok_speakFrom; [exact Hstop|].
    unfold in_range in *. unfold clamp. lia.
  - unfold stop. destruct (synthRef h) as [synth|] eqn:Hs; [|exact H].
    split; [exact Hi|]. intros ? [= <-]. constructor.
  - split; [exact Ha|exact (proj2 H)].
  - destruct (in_flight h); [|exact H]. apply Hsame; reflexivity.
  - destruct (in_flight h) as [u|] eqn:Hu; [|exact H]. unfold onend.
    assert (Hu' := in_flight_in_range h u H Hu).
    assert (Hd := indexes_ok_dequeue h H).
    destruct (Z.ltb_spec (u_startIndex u + 1) (Z.of_nat (List.length segs))).
    + apply indexes_ok_speakFrom; cbn; unfold in_range in *; lia.
    + apply (indexes_ok_set (after_dequeue h)); [exact Hd|reflexivity|].
      intros s' E. exists s'. split; [exact E|apply incl_refl].
  - destruct (in_flight h) as [u|]; [|exact H].
    apply (indexes_ok_set (after_dequeue h));
      [now apply indexes_ok_dequeue|reflexivity|].
    intros s' E. exists s'. split; [exact E|apply incl_refl].
Qed.

End Runs.

(** X22. Auto-advance plays the rest of the thread in list order: from the
    utterance for segment [k] alone in the queue, [L - k] completions in a
    row invoke the handlers of utterances that speak exactly the texts of
    segments [k], [k+1], ..., [L-1], one after the other, and leave the
    status ended with nothing in flight. *)
Theorem plays_through
    (segs : list ThreadSegment) (k : nat) (h : UseSpeech.Hook) :
  speaking segs (Z.of_nat k) h ->
  let completions := repeat UseSpeech.Ended (List.length segs - k) in
  map UseSpeech.u_text (UseSpeech.fired segs h completions)
  = map text (skipn k segs) /\
  UseSpeech.status (UseSpeech.steps segs h completions) = UseSpeech.ended /\
  UseSpeech.in_flight (UseSpeech.steps segs h completions) = None.
Proof.
  intros H. exact (plays_through_from segs _ k h eq_refl H).
Qed.

Lemma plays_through_witness :
  map UseSpeech.u_text
      (UseSpeech.fired three_segments first_playing
         [UseSpeech.Ended; UseSpeech.Ended; UseSpeech.Ended])
  = [lit "a"; lit "b"; lit "c"].
Proof.
  refine (proj1 (plays_through three_segments 0 first_playing _)).
  do 3 eexists. repeat split.
Defined.

(** X23. The engine never has two utterances queued: if at most one is
    queued, then at most one is queued after any sequence of transport
    commands, state changes and backend events. *)
Theorem never_two_in_flight
    (segs : list ThreadSegment) (h : UseSpeech.Hook)
    (l : list UseSpeech.Action) :
  single_flight h -> single_flight (UseSpeech.steps segs h l).
Proof.
  revert h. induction l as [|a l IH]; intros h H; [exact H|].
  cbn [UseSpeech.steps]. apply IH. now apply single_flight_step.
Qed.

Lemma never_two_in_flight_witness :
  single_flight
    (UseSpeech.steps three_segments (UseSpeech.mount (Some silent))
       [UseSpeech.Play; UseSpeech.Skip 1; UseSpeech.Restart; UseSpeech.Ended]).
Proof.
  apply never_two_in_flight. intros synth [= <-]. cbn. lia.
Defined.

(** X24. [currentIndex] stays a valid position: if it and the indexes of the
    queued utterances point into the (non-empty) segment list, they still do
    after any sequence of commands and backend events in which [setIndex]
    is given positions of the list only. *)
Theorem index_stays_in_range
    (segs : list ThreadSegment) (h : UseSpeech.Hook)
    (l : list UseSpeech.Action) :
  indexes_ok segs h ->
  Forall (from_page segs) l ->
  indexes_ok segs (UseSpeech.steps segs h l).
Proof.
  intros H Hl. revert h H.
  induction Hl as [|a l Ha _ IH]; intros h H; [exact H|].
  cbn [UseSpeech.steps]. apply IH. now apply indexes_ok_step.
Qed.

Lemma index_stays_in_range_witness :
  in_range three_segments
    (UseSpeech.index
       (UseSpeech.steps three_segments (UseSpeech.mount (Some silent))
          [UseSpeech.Play; UseSpeech.Skip 7; UseSpeech.Ended;
           UseSpeech.SetIndex 1; UseSpeech.Skip (-9)])).
Proof.
  refine (proj1 (index_stays_in_range three_segments _ _ _ _)).
  - split; [cbn; unfold in_range; cbn; lia|].
    intros synth [= <-]. constructor.
  - repeat constructor; unfold in_range; cbn; lia.
Defined.

(** X25. The voice of a submitted utterance is never a wrong one: it is a
    voice the backend reports under the (non-empty) URI the calling render
    holds, and it is the default voice only where the render holds no URI
    (or the empty one) or the backend reports no voice under it.  The
    utterance's rate is the render's rate. *)
Theorem speakFrom_voice
    (segs : list ThreadSegment) (r : UseSpeech.Render) (i : Z)
    (h : UseSpeech.Hook) (synth : UseSpeech.SpeechSynthesis)
    (seg : ThreadSegment) :
  UseSpeech.synthRef h = Some synth ->
  get segs i = Some seg ->
  exists u,
    UseSpeech.in_flight (UseSpeech.speakFrom segs r i h) = Some u /\
    UseSpeech.u_rate u = UseSpeech.r_rate r /\
    (forall v, UseSpeech.u_voice u = Some v ->
       In v (UseSpeech.voices synth) /\
       UseSpeech.r_voiceURI r = Some (UseSpeech.v_voiceURI v) /\
       UseSpeech.v_voiceURI v <> []) /\
    (UseSpeech.u_voice u = None ->
       forall v, In v (UseSpeech.voices synth) ->
         UseSpeech.v_voiceURI v <> [] ->
         UseSpeech.r_voiceURI r <> Some (UseSpeech.v_voiceURI v)).
Proof.
  intros Hs Hg. unfold UseSpeech.speakFrom, UseSpeech.in_flight.
  rewrite Hs. cbn. rewrite Hg. cbn.
  eexists. split; [reflexivity|]. cbn. split; [reflexivity|].
  destruct (UseSpeech.r_voiceURI r) as [[|c uri]|]; cbn [if_truthy].
  - split; [discriminate|]. intros _ v _ Hv [= E]. now apply Hv.
  - split.
    + intros v Hf. apply find_some in Hf as [Hin Heq].
      unfold JS.eqb in Heq.
      destruct (list_eq_dec N.eq_dec (UseSpeech.v_voiceURI v) (c :: uri))
        as [E|]; [|discriminate].
      split; [exact Hin|]. rewrite E. split; [reflexivity|discriminate].
    + intros Hf v Hin _ [= E].
      assert (Hn := find_none _ _ Hf v Hin). cbn in Hn.
      unfold JS.eqb in Hn. rewrite E in Hn.
      now destruct (list_eq_dec N.eq_dec (UseSpeech.v_voiceURI v)
                      (UseSpeech.v_voiceURI v)).
  - split; [discriminate|]. intros _ v _ _ E. discriminate E.
Qed.

Lemma speakFrom_voice_witness :
  exists u,
    UseSpeech.in_flight
      (UseSpeech.speakFrom three_segments
         (UseSpeech.render_of first_playing) 1 first_playing) = Some u /\
    UseSpeech.u_rate u = 1%Q.
Proof.
  destruct (speakFrom_voice three_segments (UseSpeech.render_of first_playing)
              1 first_playing _ _ eq_refl eq_refl) as (u & E & Hr & _).
  exists u. split; [exact E|exact Hr].
Defined.

(** ** The route: what is read upstream *)



(** ** Demo assembly: pasting the segments back *)

Section PasteBack.

Let one_line (l : jsstring) : Prop :=
  forallb (fun c => negb (isNewline c)) l = true.

Lemma lines_one_line l : one_line l -> lines l = [l].
Proof.
  unfold one_line. induction l as [|c l IH]; intros H; [reflexivity|].
  cbn [forallb] in H. apply andb_true_iff in H as [Hc Hl].
  cbn [lines]. destruct (isNewline c); [discriminate|].
  now rewrite (IH Hl).
Qed.

Lemma lines_app_newline l rest :
  one_line l -> lines (l ++ 10%N :: rest) = l :: lines rest.
Proof.
  unfold one_line. induction l as [|c l IH]; intros H; [reflexivity|].
  cbn [forallb] in H. apply andb_true_iff in H as [Hc Hl].
  cbn [app lines]. destruct (isNewline c); [discriminate|].
  now rewrite (IH Hl).
Qed.

Lemma lines_join ls :
  ls <> [] -> Forall one_line ls -> lines (Page.join [10%N] ls) = ls.
Proof.
  intros Hne H. induction H as [|l ls Hl Hls IH]; [contradiction|].
  destruct ls as [|l' ls'].
  - cbn [Page.join]. now apply lines_one_line.
  - change (Page.join [10%N] (l :: l' :: ls'))
      with (l ++ 10%N :: Page.join [10%N] (l' :: ls')).
    rewrite (lines_app_newline l _ Hl). f_equal. apply IH. discriminate.
Qed.

Lemma kept_fixed ls :
  Forall (fun t => t <> [] /\ trim t = t) ls ->
  filter truthy (map trim ls) = ls.
Proof.
  induction 1 as [|t ls [Hne Ht] _ IH]; [reflexivity|].
  cbn [map filter]. rewrite Ht, IH. now destruct t.
Qed.

Lemma segments_eq (a b : list ThreadSegment) :
  map id a = map id b -> map text a = map text b -> a = b.
Proof.
  revert b. induction a as [|[i t] a IH]; intros [|[j u] b] Hi Ht;
    try discriminate; [reflexivity|].
  cbn in Hi, Ht. injection Hi as -> Hi. injection Ht as -> Ht.
  f_equal. now apply IH.
Qed.

Lemma surviving_join pasted :
  surviving_lines pasted <> [] ->
  surviving_lines (Page.join [10%N] (surviving_lines pasted))
  = surviving_lines pasted.
Proof.
  intros Hne. unfold surviving_lines at 1.
  rewrite lines_join; [| exact Hne |].
  - apply kept_fixed. assert (H := surviving_trimmed pasted).
    revert H. apply Forall_impl. tauto.
  - apply Forall_forall. intros t Hin. unfold surviving_lines in Hin.
    apply filter_In in Hin as [Hin _].
    apply in_map_iff in Hin as (l & <- & Hl). apply trim_forallb.
    exact (proj1 (Forall_forall _ _) (lines_no_newline pasted) l Hl).
Qed.

End PasteBack.

(** X27. Pasting the texts of a demo payload back, one per line, gives the
    same payload: [normalizeDemoText] of the segment texts joined by
    newlines returns the very same segments, identifiers included. *)
Theorem normalizeDemoText_paste_back (pasted : jsstring) :
  normalizeDemoText
    (Page.join [10%N] (map text (normalizeDemoText pasted)))
  = normalizeDemoText pasted.
Proof.
  destruct (normalizeDemoText_cases pasted) as [[_ E]|(Hne & Ht & Hi)].
  - rewrite E. reflexivity.
  - rewrite Ht.
    assert (Hs := surviving_join pasted Hne).
    destruct (normalizeDemoText_cases
                (Page.join [10%N] (surviving_lines pasted)))
      as [[Hnil _]|(_ & Ht' & Hi')].
    + rewrite Hs in Hnil. contradiction.
    + apply segments_eq.
      * rewrite Hi', Hi, Hs. reflexivity.
      * rewrite Ht', Ht, Hs. reflexivity.
Qed.
